(** * Race-with-deadline postal code lookup (golang-multithreading)

    Shallow embedding of the two Go programs of the repository:
    - [Timed]  : src/main.go, the variant with the timing map, the mutex,
                 the wait group and the comparative-timing goroutine;
    - [Simple] : src/unnamed/part_000, the variant without timing.

    Each Lookup Task ([fetchBrasilAPI], [fetchViaCEP]) is modelled as the
    trace of effects it performs, given the outcomes of the external calls
    (request construction, [client.Do], [io.ReadAll], [json.Unmarshal]) and
    the value of [time.Since(startTime)].  The two goroutines are then run
    by an interleaving machine with a mutex, the shared timing map and the
    buffered completion channel.  The coordinator ([main]) is a function of
    the outcome of its [select], and the [select] itself is a relation on
    the arrival times of the channel values and of the deadline. *)

From Stdlib Require Import ZArith List Lia Floats Uint63 Ascii String.
From stdpp Require Import base gmap strings.
Import ListNotations.
Open Scope Z_scope.

(* ------------------------------------------------------------------ *)
(** ** Go runtime values shared by both programs *)

(** [time.Duration] is an int64 count of nanoseconds. *)
Definition Nanosecond : Z := 1.
Definition Millisecond : Z := 1000000.
Definition Second : Z := 1000000000.

(** float64(x) for an int64 x (round to nearest). *)
Definition Z_to_float (z : Z) : float :=
  if z <? 0 then PrimFloat.opp (PrimFloat.of_uint63 (Uint63.of_Z (- z)))
  else PrimFloat.of_uint63 (Uint63.of_Z z).

(** [func (d Duration) Seconds() float64] of package time:
    [sec := d / Second; nsec := d % Second;
     return float64(sec) + float64(nsec)/1e9]. *)
Definition Seconds (d : Z) : float :=
  let sec := Z.quot d Second in
  let nsec := Z.rem d Second in
  PrimFloat.add (Z_to_float sec) (PrimFloat.div (Z_to_float nsec) 1e9%float).

(** Decimal rendering of an integer, as [%d] of package fmt. *)
Fixpoint N_digits (fuel : nat) (n : N) (acc : string) : string :=
  match fuel with
  | O => acc
  | S f =>
      let acc' := String (ascii_of_N (48 + N.modulo n 10)) acc in
      if (n <? 10)%N then acc' else N_digits f (N.div n 10) acc'
  end.

Definition itoa (z : Z) : string :=
  if z <? 0 then String.append "-" (N_digits 64 (Z.to_N (- z)) EmptyString)
  else N_digits 64 (Z.to_N z) EmptyString.

(** [%.3f] of package fmt on a float64, i.e. [strconv.FormatFloat(x, 'f',
    3, 64)]: the exact binary value of [x] is rounded to the nearest
    multiple of 1/1000 (ties to even), and the sign of [x] is kept. *)
Definition round_half_even (num den : Z) : Z :=
  let q := Z.div num den in
  let r := num - q * den in
  if 2 * r <? den then q
  else if den <? 2 * r then q + 1
  else if Z.even q then q else q + 1.

Definition pad3 (n : Z) : string :=
  if n <? 10 then String.append "00" (itoa n)
  else if n <? 100 then String.append "0" (itoa n)
  else itoa n.

Definition fmt_fixed3 (neg : bool) (milli : Z) : string :=
  String.append (if neg then "-" else EmptyString)
    (String.append (itoa (Z.div milli 1000))
       (String.append "." (pad3 (Z.modulo milli 1000)))).

Definition fmt_f3 (x : float) : string :=
  match Prim2SF x with
  | S754_zero neg => fmt_fixed3 neg 0
  | S754_finite neg m e =>
      fmt_fixed3 neg
        (if 0 <=? e then Zpos m * 2 ^ e * 1000
         else round_half_even (Zpos m * 1000) (2 ^ (- e)))
  | S754_infinity neg => if neg then "-Inf" else "+Inf"
  | S754_nan => "NaN"
  end.

(** Go [error] values.  Errors coming from the standard library
    (net/http, io, encoding/json) are opaque messages; [fmt.Errorf] builds
    a formatted one. *)
Inductive go_error :=
| ErrExternal (msg : string)
| ErrFormatted (msg : string).

(** [http.StatusOK] *)
Definition StatusOK : Z := 200.

(* ------------------------------------------------------------------ *)
(** ** JSON documents and [json.Unmarshal] into a struct of strings *)

Inductive jvalue :=
| JString (s : string)
| JNumber (z : Z)
| JBool (b : bool)
| JNull.

(** A response body: a flat JSON object (keys in textual order) or bytes
    that are not valid JSON. *)
Inductive json_doc :=
| JObject (fields : list (string * jvalue))
| JMalformed.

Definition lower_ascii (c : ascii) : ascii :=
  let n := nat_of_ascii c in
  if (65 <=? n)%nat && (n <=? 90)%nat then ascii_of_nat (n + 32) else c.

Fixpoint lower (s : string) : string :=
  match s with
  | EmptyString => EmptyString
  | String c r => String (lower_ascii c) (lower r)
  end.

(** encoding/json matches an object key to a field tag exactly, or else
    case-insensitively. *)
Definition match_tag (tags : list string) (key : string) : option string :=
  match find (fun t => String.eqb t key) tags with
  | Some t => Some t
  | None => find (fun t => String.eqb (lower t) (lower key)) tags
  end.

Section Unmarshal.
Context {S : Type} (tags : list string) (set : string -> string -> S -> S).

(** Decode the members in order: a string is stored in the matching
    field (the last occurrence wins), [null] leaves it unchanged, unknown
    keys are ignored, and any other value for a string field makes
    Unmarshal return an error. *)
Fixpoint decode_fields (fs : list (string * jvalue)) (acc : S)
    : go_error + S :=
  match fs with
  | [] => inr acc
  | (k, v) :: rest =>
      match match_tag tags k with
      | None => decode_fields rest acc
      | Some t =>
          match v with
          | JString s => decode_fields rest (set t s acc)
          | JNull => decode_fields rest acc
          | _ =>
              match decode_fields rest acc with
              | inl e => inl e
              | inr _ => inl (ErrExternal "json: cannot unmarshal into Go struct field of type string")
              end
          end
      end
  end.

Definition unmarshal (zero : S) (doc : json_doc) : go_error + S :=
  match doc with
  | JMalformed => inl (ErrExternal "invalid character looking for beginning of value")
  | JObject fs => decode_fields fs zero
  end.
End Unmarshal.

(* ------------------------------------------------------------------ *)
(** ** The two backend schemas *)

Record BrasilAPICEP := mkBrasilAPICEP {
  b_Cep : string; b_State : string; b_City : string;
  b_Neighborhood : string; b_Street : string; b_Service : string }.

Record ViaCEP := mkViaCEP {
  v_Cep : string; v_Logradouro : string; v_Complemento : string;
  v_Bairro : string; v_Localidade : string; v_Uf : string;
  v_Ibge : string; v_Gia : string; v_Ddd : string; v_Siafi : string }.

Definition brasil_tags : list string :=
  ["cep"; "state"; "city"; "neighborhood"; "street"; "service"].

Definition set_brasil (t s : string) (b : BrasilAPICEP) : BrasilAPICEP :=
  let '(mkBrasilAPICEP c st ci n sr sv) := b in
  if String.eqb t "cep" then mkBrasilAPICEP s st ci n sr sv
  else if String.eqb t "state" then mkBrasilAPICEP c s ci n sr sv
  else if String.eqb t "city" then mkBrasilAPICEP c st s n sr sv
  else if String.eqb t "neighborhood" then mkBrasilAPICEP c st ci s sr sv
  else if String.eqb t "street" then mkBrasilAPICEP c st ci n s sv
  else if String.eqb t "service" then mkBrasilAPICEP c st ci n sr s
  else b.

Definition via_tags : list string :=
  ["cep"; "logradouro"; "complemento"; "bairro"; "localidade"; "uf";
   "ibge"; "gia"; "ddd"; "siafi"].

Definition set_via (t s : string) (v : ViaCEP) : ViaCEP :=
  let '(mkViaCEP c lg cp b lc uf ib g d sf) := v in
  if String.eqb t "cep" then mkViaCEP s lg cp b lc uf ib g d sf
  else if String.eqb t "logradouro" then mkViaCEP c s cp b lc uf ib g d sf
  else if String.eqb t "complemento" then mkViaCEP c lg s b lc uf ib g d sf
  else if String.eqb t "bairro" then mkViaCEP c lg cp s lc uf ib g d sf
  else if String.eqb t "localidade" then mkViaCEP c lg cp b s uf ib g d sf
  else if String.eqb t "uf" then mkViaCEP c lg cp b lc s ib g d sf
  else if String.eqb t "ibge" then mkViaCEP c lg cp b lc uf s g d sf
  else if String.eqb t "gia" then mkViaCEP c lg cp b lc uf ib s d sf
  else if String.eqb t "ddd" then mkViaCEP c lg cp b lc uf ib g s sf
  else if String.eqb t "siafi" then mkViaCEP c lg cp b lc uf ib g d s
  else v.

Definition zero_brasil : BrasilAPICEP := mkBrasilAPICEP EmptyString EmptyString EmptyString EmptyString EmptyString EmptyString.
Definition zero_via : ViaCEP := mkViaCEP EmptyString EmptyString EmptyString EmptyString EmptyString EmptyString EmptyString EmptyString EmptyString EmptyString.

(** [var data BrasilAPICEP; json.Unmarshal(body, &data)] *)
Definition unmarshal_brasil : json_doc -> go_error + BrasilAPICEP :=
  unmarshal brasil_tags set_brasil zero_brasil.

(** [var data ViaCEP; json.Unmarshal(body, &data)] *)
Definition unmarshal_via : json_doc -> go_error + ViaCEP :=
  unmarshal via_tags set_via zero_via.

(** The dynamic value stored in [Response.Data] (an [interface{}]);
    [None] is the nil interface. *)
Inductive payload :=
| PBrasil (b : BrasilAPICEP)
| PVia (v : ViaCEP).

(** What the outside world answers to one Lookup Task. *)
Inductive read_result :=
| ReadErr (e : go_error)          (* io.ReadAll fails *)
| ReadOk (body : json_doc).

Inductive do_result :=
| DoErr (e : go_error)            (* client.Do fails: transport, cancellation *)
| DoResp (status : Z) (body : read_result).

Record env := mkEnv {
  e_request : option go_error;   (* error of http.NewRequestWithContext *)
  e_do : do_result;
  e_elapsed : Z                  (* time.Since(startTime) when it is read *)
}.

(* ------------------------------------------------------------------ *)
(** ** Effects of a Lookup Task *)

(** The effects a goroutine performs, in program order.  [EvHttpDo] and
    [EvReadBody] are the network I/O; [EvLock]/[EvUnlock] are
    [mu.Lock()]/[mu.Unlock()]; [EvInsert k d] is [results[k] = d];
    [EvSend r] is [resultChan <- r]; [EvCloseBody] and [EvWgDone] are the
    deferred [resp.Body.Close()] and [wg.Done()]. *)
Inductive event (R : Type) :=
| EvNewRequest (url : string)
| EvHttpDo
| EvReadBody
| EvDecode
| EvLock
| EvInsert (k : string) (d : Z)
| EvUnlock
| EvSend (r : R)
| EvCloseBody
| EvWgDone.

Arguments EvNewRequest {R} url.
Arguments EvHttpDo {R}.
Arguments EvReadBody {R}.
Arguments EvDecode {R}.
Arguments EvLock {R}.
Arguments EvInsert {R} k d.
Arguments EvUnlock {R}.
Arguments EvSend {R} r.
Arguments EvCloseBody {R}.
Arguments EvWgDone {R}.

Section Events.
Context {R : Type}.

Definition is_io (e : event R) : bool :=
  match e with EvHttpDo | EvReadBody => true | _ => false end.

Definition is_send (e : event R) : bool :=
  match e with EvSend _ => true | _ => false end.

Definition is_insert (e : event R) : bool :=
  match e with EvInsert _ _ => true | _ => false end.

Definition sends (l : list (event R)) : nat := length (List.filter is_send l).
Definition http_calls (l : list (event R)) : nat :=
  length (List.filter (fun e => match e with EvHttpDo => true | _ => false end) l).

(** The responses published by a trace. *)
Definition sent (l : list (event R)) : list R :=
  flat_map (fun e => match e with EvSend r => [r] | _ => [] end) l.

(** The value a trace leaves under key [k] of the timing map. *)
Definition last_ins (k : string) (l : list (event R)) : option Z :=
  fold_left (fun acc e => match e with
                          | EvInsert k' d => if String.eqb k k' then Some d else acc
                          | _ => acc end) l None.

(** [true] iff no I/O happens while the trace holds the mutex. *)
Fixpoint no_io_locked (held : bool) (l : list (event R)) : bool :=
  match l with
  | [] => true
  | e :: r =>
      match e with
      | EvLock => no_io_locked true r
      | EvUnlock => no_io_locked false r
      | _ => negb (held && is_io e) && no_io_locked held r
      end
  end.

Definition is_cleanup (e : event R) : bool :=
  match e with EvCloseBody | EvWgDone => true | _ => false end.

(** Exactly one send, after which the goroutine only runs its deferred
    calls and returns ([seen]: the send has happened). *)
Fixpoint send_then_return (seen : bool) (l : list (event R)) : bool :=
  match l with
  | [] => seen
  | EvSend _ :: r => negb seen && send_then_return true r
  | e :: r => (negb seen || is_cleanup e) && send_then_return seen r
  end.

(** Shape of the mutex use of a goroutine: outside the critical section
    anything but [Insert]/[Unlock]; inside it exactly one [Insert]
    followed by [Unlock]; at most one critical section. *)
Inductive phase := Before | Locked | Inserted | After.

Definition lstep (p : phase) (e : event R) : option phase :=
  match p, e with
  | Before, EvLock => Some Locked
  | Before, EvInsert _ _ => None
  | Before, EvUnlock => None
  | Before, _ => Some Before
  | Locked, EvInsert _ _ => Some Inserted
  | Locked, _ => None
  | Inserted, EvUnlock => Some After
  | Inserted, _ => None
  | After, EvLock => None
  | After, EvInsert _ _ => None
  | After, EvUnlock => None
  | After, _ => Some After
  end.

Definition in_cs (p : phase) : bool :=
  match p with Locked | Inserted => true | _ => false end.

Fixpoint lockwf (p : phase) (l : list (event R)) : bool :=
  match l with
  | [] => negb (in_cs p)
  | e :: r => match lstep p e with Some p' => lockwf p' r | None => false end
  end.
End Events.

(* ------------------------------------------------------------------ *)
(** ** Two goroutines, a mutex, a map and a buffered channel *)

Inductive tid := T0 | T1.

Definition tid_eqb (i j : tid) : bool :=
  match i, j with T0, T0 | T1, T1 => true | _, _ => false end.

Definition other (i : tid) : tid := match i with T0 => T1 | T1 => T0 end.

Section Machine.
Context {R : Type}.
(** capacity of the channel, [make(chan Response, cap)] *)
Variable cap : nat.

Record cfg := mkCfg {
  rem : tid -> list (event R);   (* what each goroutine still has to do *)
  hist : tid -> list (event R);  (* what it has done (ghost) *)
  lk : option tid;               (* holder of the mutex *)
  tmap : gmap string Z;          (* timingResults *)
  buf : list R                   (* contents of resultChan *)
}.

Definition upd {A} (f : tid -> A) (i : tid) (v : A) : tid -> A :=
  fun j => if tid_eqb j i then v else f j.

Definition advance (c : cfg) (i : tid) (e : event R) (r : list (event R)) : cfg :=
  mkCfg (upd (rem c) i r) (upd (hist c) i (hist c i ++ [e])) (lk c) (tmap c) (buf c).

Definition set_lk (c : cfg) (o : option tid) : cfg :=
  mkCfg (rem c) (hist c) o (tmap c) (buf c).
Definition set_tmap (c : cfg) (m : gmap string Z) : cfg :=
  mkCfg (rem c) (hist c) (lk c) m (buf c).
Definition set_buf (c : cfg) (b : list R) : cfg :=
  mkCfg (rem c) (hist c) (lk c) (tmap c) b.

(** One step of goroutine [i]; [None] when it is blocked or finished.
    [Lock] blocks while the mutex is held, a send blocks on a full
    buffer, [Unlock] of an unlocked mutex is a fatal error. *)
Definition exec_thread (c : cfg) (i : tid) : option cfg :=
  match rem c i with
  | [] => None
  | e :: r =>
      let c1 := advance c i e r in
      match e with
      | EvLock => match lk c with None => Some (set_lk c1 (Some i)) | Some _ => None end
      | EvUnlock => match lk c with Some _ => Some (set_lk c1 None) | None => None end
      | EvInsert k d => Some (set_tmap c1 (<[k:=d]> (tmap c)))
      | EvSend x =>
          if (length (buf c) <? cap)%nat then Some (set_buf c1 (buf c ++ [x])) else None
      | _ => Some c1
      end
  end.

(** A receive by the coordinator or the aggregator. *)
Definition exec_recv (c : cfg) : option cfg :=
  match buf c with [] => None | _ :: b => Some (set_buf c b) end.

Inductive sched := Run (i : tid) | Recv.

Definition exec (c : cfg) (s : sched) : option cfg :=
  match s with Run i => exec_thread c i | Recv => exec_recv c end.

Fixpoint run (c : cfg) (ss : list sched) : option cfg :=
  match ss with
  | [] => Some c
  | s :: ss' => match exec c s with Some c' => run c' ss' | None => None end
  end.

Definition init (tr : tid -> list (event R)) : cfg :=
  mkCfg tr (fun _ => []) None ∅ [].

Inductive reach (c0 : cfg) : cfg -> Prop :=
| reach_refl : reach c0 c0
| reach_step c s c' : reach c0 c -> exec c s = Some c' -> reach c0 c'.

(** Goroutine [i] has taken the mutex and not released it yet. *)
Definition in_critical (c : cfg) (i : tid) : bool :=
  match rem c i with
  | EvInsert _ _ :: _ | EvUnlock :: _ => true
  | _ => false
  end.
End Machine.

Arguments sched : clear implicits.

(* ------------------------------------------------------------------ *)
(** ** The coordinator's [select] *)

(** Outcome of [select { case result := <-resultChan: ... case <-ctx.Done(): ... }]. *)
Inductive sel_outcome (R : Type) :=
| RecvValue (r : R)
| CtxDone.
Arguments RecvValue {R} r.
Arguments CtxDone {R}.

(** [arrivals] lists the instants at which values are sent on the channel
    (the channel is FIFO, so a receive yields the earliest one), and
    [deadline] the instant at which [ctx.Done()] is closed.  When both
    cases are ready at once Go picks either, so the relation allows both. *)
Inductive selects {R : Type} (arrivals : list (Z * R)) (deadline : Z)
    : sel_outcome R -> Prop :=
| sel_recv t r :
    In (t, r) arrivals ->
    (forall t' r', In (t', r') arrivals -> t <= t') ->
    t <= deadline ->
    selects arrivals deadline (RecvValue r)
| sel_done :
    (forall t' r', In (t', r') arrivals -> deadline <= t') ->
    selects arrivals deadline CtxDone.

(** [context.WithTimeout(context.Background(), 1*time.Second)] *)
Definition ctx_timeout : Z := 1 * Second.

(* ------------------------------------------------------------------ *)
(** ** src/main.go : the variant with comparative timing *)

Module Timed.

Record Response := mkResponse {
  Data : option payload;
  APIName : string;
  Error : option go_error;
  Duration : Z }.

(** The body shared by [fetchBrasilAPI] and [fetchViaCEP] (the two Go
    functions differ only in [apiName], the URL and the decoded type). *)
Definition fetch_task (apiName url : string)
    (decode : json_doc -> go_error + payload) (e : env)
    : list (event Response) :=
  let fail err := EvSend (mkResponse None apiName (Some err) (e_elapsed e)) in
  EvNewRequest url ::
  match e_request e with
  | Some err => [fail err; EvWgDone]
  | None =>
      EvHttpDo ::
      match e_do e with
      | DoErr err => [fail err; EvWgDone]
      | DoResp status rb =>
          if negb (status =? StatusOK) then
            [fail (ErrFormatted (String.append "status code: " (itoa status)));
             EvCloseBody; EvWgDone]
          else
            EvReadBody ::
            match rb with
            | ReadErr err => [fail err; EvCloseBody; EvWgDone]
            | ReadOk body =>
                EvDecode ::
                match decode body with
                | inl err => [fail err; EvCloseBody; EvWgDone]
                | inr data =>
                    let duration := e_elapsed e in
                    [EvLock; EvInsert apiName duration; EvUnlock;
                     EvSend (mkResponse (Some data) apiName None duration);
                     EvCloseBody; EvWgDone]
                end
            end
      end
  end.

Definition decode_brasil (body : json_doc) : go_error + payload :=
  match unmarshal_brasil body with inl e => inl e | inr d => inr (PBrasil d) end.
Definition decode_via (body : json_doc) : go_error + payload :=
  match unmarshal_via body with inl e => inl e | inr d => inr (PVia d) end.

Definition fetchBrasilAPI (cep : string) (e : env) : list (event Response) :=
  fetch_task "BrasilAPI" (String.append "https://brasilapi.com.br/api/cep/v1/" cep)
    decode_brasil e.

Definition fetchViaCEP (cep : string) (e : env) : list (event Response) :=
  fetch_task "ViaCEP"
    (String.append "http://viacep.com.br/ws/" (String.append cep "/json/"))
    decode_via e.

(** [go fetchBrasilAPI(...)] and [go fetchViaCEP(...)]: goroutine [T0]
    runs the first, goroutine [T1] the second. *)
Definition launch (cep : string) (eB eV : env) : tid -> list (event Response) :=
  fun i => match i with T0 => fetchBrasilAPI cep eB | T1 => fetchViaCEP cep eV end.

(** [resultChan := make(chan Response, 2)] *)
Definition resultChan_cap : nat := 2.

(** The lines of the comparative-timing goroutine. *)
Inductive agg_line :=
| AggHeader
| AggFastest (api : string) (secs : float)
| AggSlowest (api : string) (secs : float)
| AggDiff (secs : float)
| AggEntry (api : string) (secs : float)
| AggUnavailable.

(** One iteration of [for api, duration := range timingResults]. *)
Definition agg_iter (st : string * Z * string * Z) (entry : string * Z)
    : string * Z * string * Z :=
  let '(fastest, fastestTime, slowest, slowestTime) := st in
  let '(api, duration) := entry in
  let '(fastest, fastestTime) :=
    if String.eqb fastest EmptyString || (duration <? fastestTime)
    then (api, duration) else (fastest, fastestTime) in
  let '(slowest, slowestTime) :=
    if String.eqb slowest EmptyString || (slowestTime <? duration)
    then (api, duration) else (slowest, slowestTime) in
  (fastest, fastestTime, slowest, slowestTime).

Definition agg_loop (order : list (string * Z)) : string * Z * string * Z :=
  fold_left agg_iter order (EmptyString, 0, EmptyString, 0).

(** The goroutine started after a success, once [wg.Wait()] returns.
    Go ranges over a map in an unspecified order: [order] and [order2]
    are the orders of the two [range] loops (each a permutation of the
    map's entries). *)
Definition aggregator (m : gmap string Z) (order order2 : list (string * Z))
    : list agg_line :=
  AggHeader ::
  if (1 <? size m)%nat then
    let '(fastest, fastestTime, slowest, slowestTime) := agg_loop order in
    [AggFastest fastest (Seconds fastestTime);
     AggSlowest slowest (Seconds slowestTime);
     AggDiff (PrimFloat.sub (Seconds slowestTime) (Seconds fastestTime))] ++
    map (fun '(api, duration) => AggEntry api (Seconds duration)) order2
  else [AggUnavailable].

Inductive action :=
| PrintUsage
| PrintSearching (cep : string)
| WithTimeout (d : Z)
| MakeChan (capacity : nat)
| GoFetch (api : string)
| SelectFirst                      (* the blocking select *)
| PrintApiError (api : string) (err : go_error)
| PrintWinner (api : string) (secs : float)
| PrintFields (cep state city bairro rua : string)
| PrintTimeout
| GoAggregator
| RecvOrAfter (d : Z)              (* select on resultChan / time.After *)
| SleepFor (d : Z)
| Cancel                           (* deferred cancel() *)
| AggPrint (l : agg_line).

Definition blocking (a : action) : bool :=
  match a with SelectFirst | RecvOrAfter _ | SleepFor _ => true | _ => false end.

(** [switch data := result.Data.(type)] *)
Definition print_data (d : option payload) : list action :=
  match d with
  | Some (PBrasil b) =>
      [PrintFields (b_Cep b) (b_State b) (b_City b) (b_Neighborhood b) (b_Street b)]
  | Some (PVia v) =>
      [PrintFields (v_Cep v) (v_Uf v) (v_Localidade v) (v_Bairro v) (v_Logradouro v)]
  | None => []
  end.

(** What [main] does once the select has chosen. *)
Definition coordinate (first : sel_outcome Response) : list action :=
  match first with
  | RecvValue result =>
      match Error result with
      | Some err => [PrintApiError (APIName result) err]
      | None =>
          PrintWinner (APIName result) (Seconds (Duration result)) ::
          print_data (Data result) ++
          [GoAggregator; RecvOrAfter (100 * Millisecond); SleepFor (200 * Millisecond)]
      end
  | CtxDone => [PrintTimeout]
  end.

Definition main (args : list string) (first : sel_outcome Response) : list action :=
  match args with
  | _ :: cep :: _ =>
      [PrintSearching cep; WithTimeout ctx_timeout; MakeChan resultChan_cap;
       GoFetch "BrasilAPI"; GoFetch "ViaCEP"; SelectFirst] ++
      coordinate first ++ [Cancel]
  | _ => [PrintUsage]
  end.

(** Everything printed by the process: [main]'s actions, followed by the
    lines of the aggregator goroutine when [main] started it. *)
Definition program_output (args : list string) (first : sel_outcome Response)
    (m : gmap string Z) (order order2 : list (string * Z)) : list action :=
  main args first ++
  (if existsb (fun a => match a with GoAggregator => true | _ => false end)
              (main args first)
   then map AggPrint (aggregator m order order2) else []).

End Timed.

(* ------------------------------------------------------------------ *)
(** ** src/unnamed/part_000 : the variant without timing *)

Module Simple.

Record Response := mkResponse {
  Data : option payload;
  APIName : string;
  Error : option go_error }.

(** The body shared by this variant's [fetchBrasilAPI] and [fetchViaCEP]:
    no time measurement, no wait group, no timing map. *)
Definition fetch_task (apiName url : string)
    (decode : json_doc -> go_error + payload) (e : env)
    : list (event Response) :=
  let fail err := EvSend (mkResponse None apiName (Some err)) in
  EvNewRequest url ::
  match e_request e with
  | Some err => [fail err]
  | None =>
      EvHttpDo ::
      match e_do e with
      | DoErr err => [fail err]
      | DoResp status rb =>
          if negb (status =? StatusOK) then
            [fail (ErrFormatted (String.append "status code: " (itoa status)));
             EvCloseBody]
          else
            EvReadBody ::
            match rb with
            | ReadErr err => [fail err; EvCloseBody]
            | ReadOk body =>
                EvDecode ::
                match decode body with
                | inl err => [fail err; EvCloseBody]
                | inr data =>
                    [EvSend (mkResponse (Some data) apiName None); EvCloseBody]
                end
            end
      end
  end.

Definition fetchBrasilAPI (cep : string) (e : env) : list (event Response) :=
  fetch_task "BrasilAPI" (String.append "https://brasilapi.com.br/api/cep/v1/" cep)
    Timed.decode_brasil e.

Definition fetchViaCEP (cep : string) (e : env) : list (event Response) :=
  fetch_task "ViaCEP"
    (String.append "http://viacep.com.br/ws/" (String.append cep "/json/"))
    Timed.decode_via e.

(** [go fetchBrasilAPI(...)] and [go fetchViaCEP(...)]: goroutine [T0]
    runs the first, goroutine [T1] the second. *)
Definition launch (cep : string) (eB eV : env) : tid -> list (event Response) :=
  fun i => match i with T0 => fetchBrasilAPI cep eB | T1 => fetchViaCEP cep eV end.

(** [resultChan := make(chan Response, 2)] *)
Definition resultChan_cap : nat := 2.

Inductive action :=
| PrintUsage
| PrintSearching (cep : string)
| WithTimeout (d : Z)
| MakeChan (capacity : nat)
| GoFetch (api : string)
| SelectFirst
| PrintApiError (api : string) (err : go_error)
| PrintWinner (api : string)
| PrintFields (cep state city bairro rua : string)
| PrintTimeout
| Cancel.

Definition blocking (a : action) : bool :=
  match a with SelectFirst => true | _ => false end.

Definition print_data (d : option payload) : list action :=
  match d with
  | Some (PBrasil b) =>
      [PrintFields (b_Cep b) (b_State b) (b_City b) (b_Neighborhood b) (b_Street b)]
  | Some (PVia v) =>
      [PrintFields (v_Cep v) (v_Uf v) (v_Localidade v) (v_Bairro v) (v_Logradouro v)]
  | None => []
  end.

(** The select is the last statement of [main]: the timeout branch has no
    [return] but falls off the end of the function. *)
Definition coordinate (first : sel_outcome Response) : list action :=
  match first with
  | RecvValue result =>
      match Error result with
      | Some err => [PrintApiError (APIName result) err]
      | None => PrintWinner (APIName result) :: print_data (Data result)
      end
  | CtxDone => [PrintTimeout]
  end.

Definition main (args : list string) (first : sel_outcome Response) : list action :=
  match args with
  | _ :: cep :: _ =>
      [PrintSearching cep; WithTimeout ctx_timeout; MakeChan resultChan_cap;
       GoFetch "BrasilAPI"; GoFetch "ViaCEP"; SelectFirst] ++
      coordinate first ++ [Cancel]
  | _ => [PrintUsage]
  end.

End Simple.

(* ------------------------------------------------------------------ *)
(** ** The timed variant seen from the simple one *)

(** A response of src/main.go without its [Duration] field, i.e. the
    response src/unnamed/part_000 builds on the same path. *)
Definition erase_response (r : Timed.Response) : Simple.Response :=
  Simple.mkResponse (Timed.Data r) (Timed.APIName r) (Timed.Error r).

(** The effects of src/main.go that src/unnamed/part_000 does not have:
    the mutex, the timing map and the wait group. *)
Definition erase_event (e : event Timed.Response) : list (event Simple.Response) :=
  match e with
  | EvNewRequest u => [EvNewRequest u]
  | EvHttpDo => [EvHttpDo]
  | EvReadBody => [EvReadBody]
  | EvDecode => [EvDecode]
  | EvLock | EvInsert _ _ | EvUnlock | EvWgDone => []
  | EvSend r => [EvSend (erase_response r)]
  | EvCloseBody => [EvCloseBody]
  end.

Definition erase_trace (l : list (event Timed.Response)) : list (event Simple.Response) :=
  flat_map erase_event l.

Definition erase_outcome (o : sel_outcome Timed.Response) : sel_outcome Simple.Response :=
  match o with RecvValue r => RecvValue (erase_response r) | CtxDone => CtxDone end.

(** The actions of the timed [main] that the simple one has: the winner
    line loses its duration; the comparative-timing goroutine, the
    draining select and the sleep disappear. *)
Definition erase_action (a : Timed.action) : list Simple.action :=
  match a with
  | Timed.PrintUsage => [Simple.PrintUsage]
  | Timed.PrintSearching cep => [Simple.PrintSearching cep]
  | Timed.WithTimeout d => [Simple.WithTimeout d]
  | Timed.MakeChan n => [Simple.MakeChan n]
  | Timed.GoFetch api => [Simple.GoFetch api]
  | Timed.SelectFirst => [Simple.SelectFirst]
  | Timed.PrintApiError api err => [Simple.PrintApiError api err]
  | Timed.PrintWinner api _ => [Simple.PrintWinner api]
  | Timed.PrintFields c s ci b r => [Simple.PrintFields c s ci b r]
  | Timed.PrintTimeout => [Simple.PrintTimeout]
  | Timed.GoAggregator | Timed.RecvOrAfter _ | Timed.SleepFor _ | Timed.AggPrint _ => []
  | Timed.Cancel => [Simple.Cancel]
  end.

Definition erase_actions (l : list Timed.action) : list Simple.action :=
  flat_map erase_action l.

(** Reading back a string of decimal digits, most significant first. *)
Fixpoint read_digits (s : string) (acc : N) : option N :=
  match s with
  | EmptyString => Some acc
  | String c r =>
      let n := N_of_ascii c in
      if (48 <=? n)%N && (n <=? 57)%N then read_digits r (acc * 10 + (n - 48))%N
      else None
  end.


(* ------------------------------------------------------------------ *)
(** ** Sanity checks of the embedding on concrete inputs *)

Example itoa_404 : itoa 404 = "404"%string.
Proof. reflexivity. Qed.

Example itoa_0 : itoa 0 = "0"%string.
Proof. reflexivity. Qed.

Example fmt_f3_seconds : fmt_f3 (Seconds 1234000000) = "1.234"%string.
Proof. vm_compute. reflexivity. Qed.

Example fmt_f3_half_milli : fmt_f3 (Seconds 500000) = "0.001"%string.
Proof. vm_compute. reflexivity. Qed.

Example fmt_f3_negative : fmt_f3 (PrimFloat.opp (Seconds 100000)) = "-0.000"%string.
Proof. vm_compute. reflexivity. Qed.

Example unmarshal_via_fold :
  unmarshal_via (JObject [("UF", JString "SP"); ("cep", JString "01153-000"); ("x", JNumber 3)])
  = inr {| v_Cep := "01153-000"; v_Logradouro := EmptyString; v_Complemento := EmptyString;
           v_Bairro := EmptyString; v_Localidade := EmptyString; v_Uf := "SP";
           v_Ibge := EmptyString; v_Gia := EmptyString; v_Ddd := EmptyString;
           v_Siafi := EmptyString |}.
Proof. reflexivity. Qed.

Example unmarshal_brasil_type_error :
  exists e, unmarshal_brasil (JObject [("cep", JNumber 1153000)]) = inl e.
Proof. eexists. reflexivity. Qed.

(* ------------------------------------------------------------------ *)
(** ** Invariants of the interleaving machine *)

Lemma tid_eq_dec (i j : tid) : {i = j} + {i <> j}.
Proof. decide equality. Defined.

Lemma upd_same {A} (f : tid -> A) i v : upd f i v i = v.
Proof. destruct i; reflexivity. Qed.

Lemma upd_other {A} (f : tid -> A) i j v : j <> i -> upd f i v j = f j.
Proof. intros H. unfold upd. destruct i, j; simpl; congruence. Qed.

Section MachineProofs.
Context {R : Type}.
Variable cap : nat.
Variable tr : tid -> list (event R).

Lemma exec_thread_inv (c c' : @cfg R) i :
  exec_thread cap c i = Some c' ->
  exists e r, rem c i = e :: r /\ rem c' = upd (rem c) i r /\
    hist c' = upd (hist c) i (hist c i ++ [e]) /\
    match e with
    | EvLock => lk c = None /\ lk c' = Some i /\ tmap c' = tmap c /\ buf c' = buf c
    | EvUnlock => lk c <> None /\ lk c' = None /\ tmap c' = tmap c /\ buf c' = buf c
    | EvInsert k d => lk c' = lk c /\ tmap c' = <[k:=d]> (tmap c) /\ buf c' = buf c
    | EvSend x => (length (buf c) < cap)%nat /\ lk c' = lk c /\ tmap c' = tmap c /\
                  buf c' = buf c ++ [x]
    | _ => lk c' = lk c /\ tmap c' = tmap c /\ buf c' = buf c
    end.
Proof.
  unfold exec_thread. destruct (rem c i) as [|e r] eqn:E; [discriminate|].
  intros H. exists e, r. split; [reflexivity|].
  destruct e; try (injection H as <-; simpl; repeat split; reflexivity).
  - destruct (lk c) eqn:L; [discriminate|].
    injection H as <-; simpl; repeat split; auto.
  - destruct (lk c) eqn:L; [|discriminate].
    injection H as <-; simpl; repeat split; congruence.
  - destruct (length (buf c) <? cap)%nat eqn:L; [|discriminate].
    apply Nat.ltb_lt in L. injection H as <-; simpl; repeat split; auto.
Qed.

Lemma exec_recv_inv (c c' : @cfg R) :
  exec_recv c = Some c' ->
  rem c' = rem c /\ hist c' = hist c /\ lk c' = lk c /\ tmap c' = tmap c /\
  exists x, buf c = x :: buf c'.
Proof.
  unfold exec_recv. destruct (buf c) as [|x b] eqn:E; [discriminate|].
  intros H; injection H as <-; simpl; repeat split; eauto.
Qed.

Lemma reach_hist_rem c :
  reach cap (init tr) c -> forall i, hist c i ++ rem c i = tr i.
Proof.
  induction 1 as [|c s c' Hr IH Hs]; [intros i; reflexivity|].
  destruct s as [j|]; simpl in Hs.
  - apply exec_thread_inv in Hs as (e & r & Hrem & Hrem' & Hhist' & _).
    intros i. rewrite Hrem', Hhist'.
    destruct (tid_eq_dec i j) as [->|Hne].
    + rewrite !upd_same, <- app_assoc. simpl. rewrite <- Hrem. apply IH.
    + rewrite !upd_other by exact Hne. apply IH.
  - apply exec_recv_inv in Hs as (-> & -> & _). exact IH.
Qed.

Hypothesis tr_wf : forall i, lockwf Before (tr i) = true.

(** The mutex is held by [i] exactly when [i] is inside its critical
    section. *)
Lemma reach_lock c :
  reach cap (init tr) c ->
  forall i, exists p, lockwf p (rem c i) = true /\ (in_cs p = true <-> lk c = Some i).
Proof.
  induction 1 as [|c s c' Hr IH Hs].
  - intros i. exists Before. split; [apply tr_wf|]. simpl. split; discriminate.
  - destruct s as [j|]; simpl in Hs.
    + apply exec_thread_inv in Hs as (e & r & Hrem & Hrem' & Hhist' & He).
      destruct (IH j) as (pj & Hwj & Hcsj).
      rewrite Hrem in Hwj. simpl in Hwj.
      destruct (lstep pj e) as [pj'|] eqn:Hl; [|discriminate].
      intros i. rewrite Hrem'.
      destruct (tid_eq_dec i j) as [->|Hne].
      * rewrite upd_same. exists pj'. split; [exact Hwj|].
        destruct e, pj; simpl in Hl; try discriminate; injection Hl as <-;
          simpl; destruct He as [H1 [H2 ?]]; try (rewrite H1 in *);
          try (rewrite H2 in *); simpl in *; intuition congruence.
      * rewrite upd_other by exact Hne.
        destruct (IH i) as (pi & Hwi & Hcsi). exists pi. split; [exact Hwi|].
        destruct e, pj; simpl in Hl; try discriminate; injection Hl as <-;
          simpl in *; destruct He as [H1 [H2 ?]]; try (rewrite H1 in *);
          try (rewrite H2 in *); simpl in *;
          destruct (in_cs pi); intuition congruence.
    + apply exec_recv_inv in Hs as (-> & _ & -> & _). exact IH.
Qed.
End MachineProofs.

Section MachineProofs2.
Context {R : Type}.
Variable cap : nat.
Variable tr : tid -> list (event R).

Lemma sends_app (l1 l2 : list (event R)) : sends (l1 ++ l2) = (sends l1 + sends l2)%nat.
Proof. unfold sends. rewrite List.filter_app, length_app. reflexivity. Qed.

Lemma sends_one (e : event R) : sends [e] = if is_send e then 1%nat else 0%nat.
Proof. destruct e; reflexivity. Qed.

Lemma reach_buf c :
  reach cap (init tr) c ->
  (length (buf c) <= sends (hist c T0) + sends (hist c T1))%nat.
Proof.
  induction 1 as [|c s c' Hr IH Hs]; [simpl; lia|].
  destruct s as [j|]; simpl in Hs.
  - apply exec_thread_inv in Hs as (e & r & Hrem & Hrem' & Hhist' & He).
    assert (Hb : (length (buf c') <= length (buf c) + (if is_send e then 1 else 0))%nat).
    { destruct e; simpl in *;
        repeat match goal with H : _ /\ _ |- _ => destruct H end;
        match goal with H : buf c' = _ |- _ => rewrite H end;
        rewrite ?length_app; simpl; lia. }
    rewrite Hhist'. destruct j; rewrite ?upd_same, ?upd_other by discriminate;
      rewrite sends_app, sends_one; lia.
  - apply exec_recv_inv in Hs as (_ & -> & _ & _ & x & Hx).
    rewrite Hx in IH. simpl in IH. lia.
Qed.

Hypothesis tr_wf : forall i, lockwf Before (tr i) = true.

(** A goroutine inside its critical section holds the mutex. *)
Lemma reach_critical_holds c i :
  reach cap (init tr) c -> in_critical c i = true -> lk c = Some i.
Proof.
  intros Hr Hc. destruct (reach_lock cap tr tr_wf c Hr i) as (p & Hw & Hp).
  apply Hp. unfold in_critical in Hc.
  destruct (rem c i) as [|e r]; [discriminate|].
  destruct e; try discriminate; destruct p; simpl in Hw; try discriminate; reflexivity.
Qed.

Lemma reach_mutex c :
  reach cap (init tr) c -> ~ (in_critical c T0 = true /\ in_critical c T1 = true).
Proof.
  intros Hr [H0 H1].
  apply (reach_critical_holds c) in H0; [|exact Hr].
  apply (reach_critical_holds c) in H1; [|exact Hr]. congruence.
Qed.

Hypothesis tr_one_send : forall i, sends (tr i) = 1%nat.

(** With a buffer as large as the number of goroutines, a send finds room. *)
Lemma reach_send_room c i x r :
  cap = 2%nat -> reach cap (init tr) c -> rem c i = EvSend x :: r ->
  (length (buf c) < cap)%nat.
Proof.
  intros Hcap Hr Hrem.
  pose proof (reach_buf c Hr) as Hb.
  pose proof (reach_hist_rem cap tr c Hr) as Hh.
  assert (Hi : sends (hist c i) = 0%nat).
  { specialize (Hh i). rewrite Hrem in Hh.
    pose proof (tr_one_send i) as Hs. rewrite <- Hh, sends_app in Hs.
    unfold sends in *. simpl in Hs. lia. }
  assert (Hj : (sends (hist c (other i)) <= 1)%nat).
  { specialize (Hh (other i)). pose proof (tr_one_send (other i)) as Hs.
    rewrite <- Hh, sends_app in Hs. lia. }
  destruct i; simpl in Hj; lia.
Qed.

Lemma reach_send_progress c i x r :
  cap = 2%nat -> reach cap (init tr) c -> rem c i = EvSend x :: r ->
  exists c', exec cap c (Run i) = Some c'.
Proof.
  intros Hcap Hr Hrem. pose proof (reach_send_room c i x r Hcap Hr Hrem) as Hl.
  simpl. unfold exec_thread. rewrite Hrem.
  apply Nat.ltb_lt in Hl. rewrite Hl. eexists; reflexivity.
Qed.
End MachineProofs2.

Section MapProofs.
Context {R : Type}.
Variable cap : nat.
Variable tr : tid -> list (event R).
(** Each goroutine writes under its own key ([apiName]). *)
Variable key : tid -> string.
Hypothesis keys_differ : key T0 <> key T1.
Hypothesis tr_keys : forall i k d, In (EvInsert k d) (tr i) -> k = key i.

Lemma last_ins_snoc k (l : list (event R)) e :
  last_ins k (l ++ [e]) =
  match e with
  | EvInsert k' d => if String.eqb k k' then Some d else last_ins k l
  | _ => last_ins k l
  end.
Proof. unfold last_ins. rewrite fold_left_app. destruct e; reflexivity. Qed.

Lemma last_ins_none k (l : list (event R)) :
  (forall d, ~ In (EvInsert k d) l) -> last_ins k l = None.
Proof.
  induction l as [|e l IH] using rev_ind; [reflexivity|].
  intros H. rewrite last_ins_snoc.
  assert (IH' : last_ins k l = None).
  { apply IH. intros d Hd. apply (H d), in_or_app. auto. }
  destruct e; try exact IH'.
  destruct (String.eqb_spec k k0) as [->|]; [|exact IH'].
  exfalso. apply (H d), in_or_app. right. left. reflexivity.
Qed.

Lemma other_keys_none c i k :
  reach cap (init tr) c -> k <> key i -> last_ins k (hist c i) = None.
Proof.
  intros Hr Hk. apply last_ins_none. intros d Hd. apply Hk.
  apply (tr_keys i k d). rewrite <- (reach_hist_rem cap tr c Hr i).
  apply in_or_app. auto.
Qed.

Lemma reach_tmap c :
  reach cap (init tr) c ->
  forall k, tmap c !! k =
    match last_ins k (hist c T0) with
    | Some d => Some d
    | None => last_ins k (hist c T1)
    end.
Proof.
  intros Hr. induction Hr as [|c s c' Hr IH Hs].
  - intros k. simpl. rewrite lookup_empty. reflexivity.
  - destruct s as [j|]; simpl in Hs.
    + pose proof Hs as Hs0.
      apply exec_thread_inv in Hs as (e & r & Hrem & Hrem' & Hhist' & He).
      intros k. rewrite Hhist'.
      destruct e as [u| | | | |k' d| |x| |];
        repeat match goal with H : _ /\ _ |- _ => destruct H end;
        match goal with H : tmap c' = _ |- _ => rewrite H end;
        try solve [destruct j; rewrite ?upd_same, ?upd_other by discriminate;
                   rewrite last_ins_snoc; apply IH].
      destruct (String.eqb_spec k k') as [<-|Hne].
      * rewrite lookup_insert_eq.
        destruct j; rewrite ?upd_same, ?upd_other by discriminate;
          rewrite ?last_ins_snoc, ?String.eqb_refl; [reflexivity|].
        assert (Hk : k = key T1).
        { apply (tr_keys T1 k d). rewrite <- (reach_hist_rem cap tr c Hr T1), Hrem.
          apply in_or_app. right. left. reflexivity. }
        rewrite (other_keys_none c T0 k Hr); [reflexivity|].
        rewrite Hk. intros Heq. apply keys_differ. symmetry. exact Heq.
      * rewrite lookup_insert_ne by congruence.
        destruct j; rewrite ?upd_same, ?upd_other by discriminate;
          rewrite last_ins_snoc; apply String.eqb_neq in Hne; rewrite Hne; apply IH.
    + apply exec_recv_inv in Hs as (_ & -> & _ & -> & _). exact IH.
Qed.

(** When both goroutines have finished, the map holds what each of them
    wrote, neither entry lost. *)
Lemma final_tmap c i :
  reach cap (init tr) c -> rem c T0 = [] -> rem c T1 = [] ->
  tmap c !! key i = last_ins (key i) (tr i).
Proof.
  intros Hr H0 H1.
  pose proof (reach_hist_rem cap tr c Hr) as Hh.
  assert (E0 : hist c T0 = tr T0) by (rewrite <- Hh, H0, app_nil_r; reflexivity).
  assert (E1 : hist c T1 = tr T1) by (rewrite <- Hh, H1, app_nil_r; reflexivity).
  rewrite (reach_tmap c Hr), E0, E1.
  destruct i.
  - destruct (last_ins (key T0) (tr T0)); [reflexivity|].
    apply last_ins_none. intros d Hd. apply keys_differ. exact (tr_keys T1 _ d Hd).
  - rewrite last_ins_none; [reflexivity|].
    intros d Hd. apply keys_differ. symmetry. exact (tr_keys T0 _ d Hd).
Qed.
End MapProofs.

Lemma run_reach {R} cap (c0 : @cfg R) ss : forall c c',
  reach cap c0 c -> run cap c ss = Some c' -> reach cap c0 c'.
Proof.
  induction ss as [|s ss IH]; simpl; intros c c' Hr Hrun.
  - injection Hrun as <-. exact Hr.
  - destruct (exec cap c s) as [c1|] eqn:E; [|discriminate].
    apply (IH c1); [econstructor; eassumption | exact Hrun].
Qed.

(* ------------------------------------------------------------------ *)
(** ** Lookup Tasks: shape of their traces *)

Ltac fetch_cases :=
  repeat match goal with
         | |- context [match ?x with _ => _ end] => destruct x
         end.

Lemma sends_sent {R} (l : list (event R)) : sends l = length (sent l).
Proof.
  induction l as [|e l IH]; [reflexivity|].
  destruct e; unfold sends in *; simpl in *; rewrite ?IH; reflexivity.
Qed.

Lemma lockwf_no_lock {R} p (l : list (event R)) :
  (p = Before \/ p = After) ->
  (forall x, In x l -> is_insert x = false /\ x <> EvLock /\ x <> EvUnlock) ->
  lockwf p l = true.
Proof.
  intros Hp. induction l as [|e l IH]; intros H.
  - destruct Hp as [->| ->]; reflexivity.
  - destruct (H e (or_introl eq_refl)) as (H1 & H2 & H3).
    simpl. destruct e; simpl in H1; try discriminate; try congruence;
      destruct Hp as [->| ->]; simpl; apply IH; auto; intros x Hx; apply H; right; exact Hx.
Qed.

Lemma no_io_locked_no_lock {R} (l : list (event R)) :
  (forall x, In x l -> is_insert x = false /\ x <> EvLock /\ x <> EvUnlock) ->
  no_io_locked false l = true.
Proof.
  induction l as [|e l IH]; intros H; [reflexivity|].
  destruct (H e (or_introl eq_refl)) as (H1 & H2 & H3).
  simpl. destruct e; try congruence; simpl; apply IH; intros x Hx; apply H; right; exact Hx.
Qed.

Section TimedTask.
Variables (api url : string) (dec : json_doc -> go_error + payload) (e : env).

Let T := Timed.fetch_task api url dec e.

(** Every path of the task body ends in one of two shapes. *)
Lemma timed_task_cases :
  (exists body data,
     e_request e = None /\ e_do e = DoResp StatusOK (ReadOk body) /\
     dec body = inr data /\
     T = [EvNewRequest url; EvHttpDo; EvReadBody; EvDecode; EvLock;
          EvInsert api (e_elapsed e); EvUnlock;
          EvSend (Timed.mkResponse (Some data) api None (e_elapsed e));
          EvCloseBody; EvWgDone]) \/
  (exists err, sent T = [Timed.mkResponse None api (Some err) (e_elapsed e)] /\
     forall x, In x T -> is_insert x = false /\ x <> EvLock /\ x <> EvUnlock).
Proof.
  unfold T, Timed.fetch_task.
  destruct (e_request e) as [err|] eqn:Hq.
  { right. exists err. split; [reflexivity|].
    intros x Hx; simpl in Hx; intuition (subst; simpl; auto; discriminate). }
  destruct (e_do e) as [err|status rb] eqn:Hd.
  { right. exists err. split; [reflexivity|].
    intros x Hx; simpl in Hx; intuition (subst; simpl; auto; discriminate). }
  destruct (negb (status =? StatusOK)) eqn:Hs.
  { right. eexists. split; [reflexivity|].
    intros x Hx; simpl in Hx; intuition (subst; simpl; auto; discriminate). }
  assert (status = StatusOK) as ->.
  { apply negb_false_iff, Z.eqb_eq in Hs. exact Hs. }
  destruct rb as [err|body].
  { right. exists err. split; [reflexivity|].
    intros x Hx; simpl in Hx; intuition (subst; simpl; auto; discriminate). }
  destruct (dec body) as [err|data] eqn:Hdec.
  { right. exists err. split; [reflexivity|].
    intros x Hx; simpl in Hx; intuition (subst; simpl; auto; discriminate). }
  left. exists body, data. repeat split; auto.
Qed.

Lemma timed_task_sends : sends T = 1%nat.
Proof. unfold T, Timed.fetch_task. fetch_cases; reflexivity. Qed.

Lemma timed_task_returns : send_then_return false T = true.
Proof. unfold T, Timed.fetch_task. fetch_cases; reflexivity. Qed.

Lemma timed_task_http_calls : (http_calls T <= 1)%nat.
Proof. unfold T, Timed.fetch_task. fetch_cases; unfold http_calls; simpl; lia. Qed.

Lemma timed_task_lockwf : lockwf Before T = true.
Proof.
  destruct timed_task_cases as [(b & d & _ & _ & _ & ->)|(err & _ & H)];
    [reflexivity|apply lockwf_no_lock; auto].
Qed.

Lemma timed_task_no_io_locked : no_io_locked false T = true.
Proof.
  destruct timed_task_cases as [(b & d & _ & _ & _ & ->)|(err & _ & H)];
    [reflexivity|apply no_io_locked_no_lock; auto].
Qed.

Lemma timed_task_keys k d : In (EvInsert k d) T -> k = api.
Proof.
  destruct timed_task_cases as [(b & dt & _ & _ & _ & ->)|(err & _ & H)].
  - simpl. intuition congruence.
  - intros Hin. destruct (H _ Hin) as [Hf _]. discriminate.
Qed.

Lemma timed_task_last_ins :
  forall r, sent T = [r] ->
  last_ins api T = match Timed.Error r with None => Some (Timed.Duration r) | Some _ => None end.
Proof.
  intros r Hr.
  destruct timed_task_cases as [(b & dt & _ & _ & _ & HT)|(err & Hs & H)].
  - rewrite HT in Hr |- *. simpl in Hr. injection Hr as <-.
    unfold last_ins. cbn. rewrite String.eqb_refl. reflexivity.
  - rewrite Hs in Hr. injection Hr as <-. cbn [Timed.Error].
    apply last_ins_none. intros d Hd. destruct (H _ Hd) as [Hf _]. discriminate.
Qed.
End TimedTask.

Section SimpleTask.
Variables (api url : string) (dec : json_doc -> go_error + payload) (e : env).

Let T := Simple.fetch_task api url dec e.

Lemma simple_task_sends : sends T = 1%nat.
Proof. unfold T, Simple.fetch_task. fetch_cases; reflexivity. Qed.

Lemma simple_task_returns : send_then_return false T = true.
Proof. unfold T, Simple.fetch_task. fetch_cases; reflexivity. Qed.

Lemma simple_task_http_calls : (http_calls T <= 1)%nat.
Proof. unfold T, Simple.fetch_task. fetch_cases; unfold http_calls; simpl; lia. Qed.

Lemma simple_task_lockwf : lockwf Before T = true.
Proof. unfold T, Simple.fetch_task. fetch_cases; reflexivity. Qed.
End SimpleTask.

Section TaskFailures.
Variables (api url : string) (dec : json_doc -> go_error + payload) (e : env).

Lemma timed_fail_request err :
  e_request e = Some err ->
  sent (Timed.fetch_task api url dec e) = [Timed.mkResponse None api (Some err) (e_elapsed e)].
Proof. intros H. unfold Timed.fetch_task. rewrite H. reflexivity. Qed.

Lemma timed_fail_transport err :
  e_request e = None -> e_do e = DoErr err ->
  sent (Timed.fetch_task api url dec e) = [Timed.mkResponse None api (Some err) (e_elapsed e)].
Proof. intros H1 H2. unfold Timed.fetch_task. rewrite H1, H2. reflexivity. Qed.

Lemma timed_fail_status status rb :
  e_request e = None -> e_do e = DoResp status rb -> status <> StatusOK ->
  sent (Timed.fetch_task api url dec e) =
  [Timed.mkResponse None api
     (Some (ErrFormatted (String.append "status code: " (itoa status)))) (e_elapsed e)].
Proof.
  intros H1 H2 H3. unfold Timed.fetch_task. rewrite H1, H2.
  apply Z.eqb_neq in H3. rewrite H3. reflexivity.
Qed.

Lemma timed_fail_read err :
  e_request e = None -> e_do e = DoResp StatusOK (ReadErr err) ->
  sent (Timed.fetch_task api url dec e) = [Timed.mkResponse None api (Some err) (e_elapsed e)].
Proof. intros H1 H2. unfold Timed.fetch_task. rewrite H1, H2. reflexivity. Qed.

Lemma timed_fail_decode body err :
  e_request e = None -> e_do e = DoResp StatusOK (ReadOk body) -> dec body = inl err ->
  sent (Timed.fetch_task api url dec e) = [Timed.mkResponse None api (Some err) (e_elapsed e)].
Proof. intros H1 H2 H3. unfold Timed.fetch_task. rewrite H1, H2. simpl. rewrite H3. reflexivity. Qed.

Lemma simple_fail_request err :
  e_request e = Some err ->
  sent (Simple.fetch_task api url dec e) = [Simple.mkResponse None api (Some err)].
Proof. intros H. unfold Simple.fetch_task. rewrite H. reflexivity. Qed.

Lemma simple_fail_transport err :
  e_request e = None -> e_do e = DoErr err ->
  sent (Simple.fetch_task api url dec e) = [Simple.mkResponse None api (Some err)].
Proof. intros H1 H2. unfold Simple.fetch_task. rewrite H1, H2. reflexivity. Qed.

Lemma simple_fail_status status rb :
  e_request e = None -> e_do e = DoResp status rb -> status <> StatusOK ->
  sent (Simple.fetch_task api url dec e) =
  [Simple.mkResponse None api
     (Some (ErrFormatted (String.append "status code: " (itoa status))))].
Proof.
  intros H1 H2 H3. unfold Simple.fetch_task. rewrite H1, H2.
  apply Z.eqb_neq in H3. rewrite H3. reflexivity.
Qed.

Lemma simple_fail_read err :
  e_request e = None -> e_do e = DoResp StatusOK (ReadErr err) ->
  sent (Simple.fetch_task api url dec e) = [Simple.mkResponse None api (Some err)].
Proof. intros H1 H2. unfold Simple.fetch_task. rewrite H1, H2. reflexivity. Qed.

Lemma simple_fail_decode body err :
  e_request e = None -> e_do e = DoResp StatusOK (ReadOk body) -> dec body = inl err ->
  sent (Simple.fetch_task api url dec e) = [Simple.mkResponse None api (Some err)].
Proof. intros H1 H2 H3. unfold Simple.fetch_task. rewrite H1, H2. simpl. rewrite H3. reflexivity. Qed.
End TaskFailures.

Lemma selects_first {R} (tA tB dl : Z) (a b : R) o :
  tA < tB -> tA < dl -> selects [(tA, a); (tB, b)] dl o -> o = RecvValue a.
Proof.
  intros H1 H2 Hs. inversion Hs as [t r Hin Hmin Hdl|Hall]; subst.
  - destruct Hin as [Heq|[Heq|[]]]; injection Heq as <- <-; [reflexivity|].
    specialize (Hmin tA a (or_introl eq_refl)). lia.
  - specialize (Hall tA a (or_introl eq_refl)). lia.
Qed.

Lemma selects_late {R} (arr : list (Z * R)) dl o :
  (forall t r, In (t, r) arr -> dl < t) -> selects arr dl o -> o = CtxDone.
Proof.
  intros Hlate Hs. inversion Hs as [t r Hin Hmin Hdl|Hall]; subst; [|reflexivity].
  specialize (Hlate t r Hin). lia.
Qed.

(* ------------------------------------------------------------------ *)
(** ** The claims *)

(** C1: when backend A's value reaches the completion channel strictly
    before backend B's and before the 1-second deadline, the coordinator
    (in both variants) acts on A's value, whatever B's is: a success is
    reported at once with A's name and address fields (the blocking
    receive/sleep of the timed variant come only afterwards), a failure is
    reported and the coordinator stops, with no fallback to B. *)
Theorem C1_first_arrival_decides (tA tB : Z) (rA rB : Timed.Response)
    (sA sB : Simple.Response) (o : sel_outcome Timed.Response)
    (so : sel_outcome Simple.Response) :
  tA < tB -> tA < ctx_timeout ->
  selects [(tA, rA); (tB, rB)] ctx_timeout o ->
  selects [(tA, sA); (tB, sB)] ctx_timeout so ->
  o = RecvValue rA /\ so = RecvValue sA /\
  (forall err, Timed.Error rA = Some err ->
     Timed.coordinate o = [Timed.PrintApiError (Timed.APIName rA) err]) /\
  (Timed.Error rA = None ->
     existsb Timed.blocking (Timed.print_data (Timed.Data rA)) = false /\
     exists rest, Timed.coordinate o =
       Timed.PrintWinner (Timed.APIName rA) (Seconds (Timed.Duration rA)) ::
       Timed.print_data (Timed.Data rA) ++ rest) /\
  (forall err, Simple.Error sA = Some err ->
     Simple.coordinate so = [Simple.PrintApiError (Simple.APIName sA) err]) /\
  (Simple.Error sA = None ->
     Simple.coordinate so = Simple.PrintWinner (Simple.APIName sA) :: Simple.print_data (Simple.Data sA)).
Proof.
  intros H1 H2 Ho Hso.
  apply selects_first in Ho; [|exact H1|exact H2].
  apply selects_first in Hso; [|exact H1|exact H2]. subst o so.
  split; [reflexivity|]. split; [reflexivity|].
  split; [intros err He; simpl; rewrite He; reflexivity|].
  split.
  - intros He. split; [destruct (Timed.Data rA) as [[]|]; reflexivity|].
    simpl. rewrite He. eexists. reflexivity.
  - split; intros; simpl; match goal with H : _ = _ |- _ => rewrite H end; reflexivity.
Qed.


Ltac solve_selects :=
  first
    [ apply sel_done; intros ? ? Hin; simpl in Hin;
      repeat (destruct Hin as [Hin|Hin]; [injection Hin; intros; subst|]);
      try contradiction; unfold ctx_timeout, Second in *; lia
    | eapply sel_recv;
      [ left; reflexivity
      | intros ? ? Hin; simpl in Hin;
        repeat (destruct Hin as [Hin|Hin]; [injection Hin; intros; subst|]);
        try contradiction; lia
      | unfold ctx_timeout, Second; lia ] ].

Lemma C1_first_arrival_decides_witness :
  Timed.coordinate
    (RecvValue (Timed.mkResponse None "BrasilAPI" (Some (ErrFormatted "status code: 404")) 300))
  = [Timed.PrintApiError "BrasilAPI" (ErrFormatted "status code: 404")].
Proof.
  destruct (C1_first_arrival_decides 300 900
              (Timed.mkResponse None "BrasilAPI" (Some (ErrFormatted "status code: 404")) 300)
              (Timed.mkResponse (Some (PVia zero_via)) "ViaCEP" None 900)
              (Simple.mkResponse None "BrasilAPI" (Some (ErrFormatted "status code: 404")))
              (Simple.mkResponse (Some (PVia zero_via)) "ViaCEP" None)
              (RecvValue (Timed.mkResponse None "BrasilAPI" (Some (ErrFormatted "status code: 404")) 300))
              (RecvValue (Simple.mkResponse None "BrasilAPI" (Some (ErrFormatted "status code: 404")))))
    as (_ & _ & H & _).
  - lia.
  - unfold ctx_timeout, Second. lia.
  - solve_selects.
  - solve_selects.
  - apply H. reflexivity.
Defined.

(** C2: the shared deadline is [1*time.Second] (10^9 ns); when no value
    arrives on the channel before it, the select takes the [ctx.Done()]
    branch and both variants print the timeout line and end [main]: the
    only action left is the deferred [cancel()], no further blocking call. *)
Theorem C2_deadline_timeout (arr : list (Z * Timed.Response))
    (sarr : list (Z * Simple.Response)) (o : sel_outcome Timed.Response)
    (so : sel_outcome Simple.Response) (prog cep : string) (rest : list string) :
  (forall t r, In (t, r) arr -> ctx_timeout < t) ->
  (forall t r, In (t, r) sarr -> ctx_timeout < t) ->
  selects arr ctx_timeout o -> selects sarr ctx_timeout so ->
  ctx_timeout = 1000000000 /\ o = CtxDone /\ so = CtxDone /\
  Timed.main (prog :: cep :: rest) o =
    [Timed.PrintSearching cep; Timed.WithTimeout ctx_timeout;
     Timed.MakeChan Timed.resultChan_cap; Timed.GoFetch "BrasilAPI";
     Timed.GoFetch "ViaCEP"; Timed.SelectFirst; Timed.PrintTimeout; Timed.Cancel] /\
  Simple.main (prog :: cep :: rest) so =
    [Simple.PrintSearching cep; Simple.WithTimeout ctx_timeout;
     Simple.MakeChan Simple.resultChan_cap; Simple.GoFetch "BrasilAPI";
     Simple.GoFetch "ViaCEP"; Simple.SelectFirst; Simple.PrintTimeout; Simple.Cancel].
Proof.
  intros H1 H2 Ho Hso.
  apply selects_late in Ho; [|exact H1]. apply selects_late in Hso; [|exact H2].
  subst o so. repeat split; reflexivity.
Qed.

Lemma C2_deadline_timeout_witness :
  Timed.main ["cep"; "01153000"] CtxDone =
    [Timed.PrintSearching "01153000"; Timed.WithTimeout ctx_timeout;
     Timed.MakeChan Timed.resultChan_cap; Timed.GoFetch "BrasilAPI";
     Timed.GoFetch "ViaCEP"; Timed.SelectFirst; Timed.PrintTimeout; Timed.Cancel].
Proof.
  destruct (C2_deadline_timeout
              [(1200000000, Timed.mkResponse None "BrasilAPI" (Some (ErrExternal "context deadline exceeded")) 1200000000)]
              [(1300000000, Simple.mkResponse None "ViaCEP" (Some (ErrExternal "context deadline exceeded")))]
              CtxDone CtxDone "cep" "01153000" [])
    as (_ & _ & _ & H & _).
  - intros t r [Hin|[]]. injection Hin; intros; subst. unfold ctx_timeout, Second. lia.
  - intros t r [Hin|[]]. injection Hin; intros; subst. unfold ctx_timeout, Second. lia.
  - solve_selects.
  - solve_selects.
  - exact H.
Defined.

(** C3: on every path (request-build error, transport error, bad status,
    body-read error, decode error, success) each Lookup Task of both
    variants sends exactly one Response, after which it only runs its
    deferred calls and returns. *)
Theorem C3_one_send_per_task (cep : string) (e : env) :
  sends (Timed.fetchBrasilAPI cep e) = 1%nat /\
  send_then_return false (Timed.fetchBrasilAPI cep e) = true /\
  sends (Timed.fetchViaCEP cep e) = 1%nat /\
  send_then_return false (Timed.fetchViaCEP cep e) = true /\
  sends (Simple.fetchBrasilAPI cep e) = 1%nat /\
  send_then_return false (Simple.fetchBrasilAPI cep e) = true /\
  sends (Simple.fetchViaCEP cep e) = 1%nat /\
  send_then_return false (Simple.fetchViaCEP cep e) = true.
Proof.
  repeat split;
    first [apply timed_task_sends | apply timed_task_returns
          | apply simple_task_sends | apply simple_task_returns].
Qed.

(** C5: each failure kind of a Lookup Task (request construction,
    transport or cancellation, HTTP status other than 200 (this covers
    every non-2xx status), body read, JSON decode) makes the task publish a
    single Response with [Error] set and [APIName] the backend's name; the
    status error is [fmt.Errorf("status code: %d", status)]; the task does
    at most one HTTP call (no retry) and returns right after publishing. *)
Theorem C5_failures_as_data (cep : string) (e : env) :
  (forall task api dec,
     In (task, api, dec) [(Timed.fetchBrasilAPI cep, "BrasilAPI"%string, Timed.decode_brasil);
                          (Timed.fetchViaCEP cep, "ViaCEP"%string, Timed.decode_via)] ->
     (forall err, e_request e = Some err ->
        sent (task e) = [Timed.mkResponse None api (Some err) (e_elapsed e)]) /\
     (forall err, e_request e = None -> e_do e = DoErr err ->
        sent (task e) = [Timed.mkResponse None api (Some err) (e_elapsed e)]) /\
     (forall status rb, e_request e = None -> e_do e = DoResp status rb -> status <> StatusOK ->
        sent (task e) = [Timed.mkResponse None api
           (Some (ErrFormatted (String.append "status code: " (itoa status)))) (e_elapsed e)]) /\
     (forall err, e_request e = None -> e_do e = DoResp StatusOK (ReadErr err) ->
        sent (task e) = [Timed.mkResponse None api (Some err) (e_elapsed e)]) /\
     (forall body err, e_request e = None -> e_do e = DoResp StatusOK (ReadOk body) ->
        dec body = inl err ->
        sent (task e) = [Timed.mkResponse None api (Some err) (e_elapsed e)]) /\
     (http_calls (task e) <= 1)%nat /\ send_then_return false (task e) = true) /\
  (forall task api dec,
     In (task, api, dec) [(Simple.fetchBrasilAPI cep, "BrasilAPI"%string, Timed.decode_brasil);
                          (Simple.fetchViaCEP cep, "ViaCEP"%string, Timed.decode_via)] ->
     (forall err, e_request e = Some err ->
        sent (task e) = [Simple.mkResponse None api (Some err)]) /\
     (forall err, e_request e = None -> e_do e = DoErr err ->
        sent (task e) = [Simple.mkResponse None api (Some err)]) /\
     (forall status rb, e_request e = None -> e_do e = DoResp status rb -> status <> StatusOK ->
        sent (task e) = [Simple.mkResponse None api
           (Some (ErrFormatted (String.append "status code: " (itoa status))))]) /\
     (forall err, e_request e = None -> e_do e = DoResp StatusOK (ReadErr err) ->
        sent (task e) = [Simple.mkResponse None api (Some err)]) /\
     (forall body err, e_request e = None -> e_do e = DoResp StatusOK (ReadOk body) ->
        dec body = inl err ->
        sent (task e) = [Simple.mkResponse None api (Some err)]) /\
     (http_calls (task e) <= 1)%nat /\ send_then_return false (task e) = true).
Proof.
  split; intros task api dec Hin;
    destruct Hin as [Hin|[Hin|[]]]; injection Hin as <- <- <-;
    unfold Timed.fetchBrasilAPI, Timed.fetchViaCEP, Simple.fetchBrasilAPI, Simple.fetchViaCEP;
    repeat split; intros;
    first [ eapply timed_fail_request; eassumption
          | eapply timed_fail_transport; eassumption
          | eapply timed_fail_status; eassumption
          | eapply timed_fail_read; eassumption
          | eapply timed_fail_decode; eassumption
          | eapply simple_fail_request; eassumption
          | eapply simple_fail_transport; eassumption
          | eapply simple_fail_status; eassumption
          | eapply simple_fail_read; eassumption
          | eapply simple_fail_decode; eassumption
          | apply timed_task_http_calls | apply timed_task_returns
          | apply simple_task_http_calls | apply simple_task_returns ].
Qed.

Lemma C5_failures_as_data_witness :
  sent (Timed.fetchViaCEP "00000000"
          (mkEnv None (DoResp 404 (ReadOk (JObject [("erro", JBool true)]))) 120000000)) =
  [Timed.mkResponse None "ViaCEP" (Some (ErrFormatted "status code: 404")) 120000000].
Proof.
  destruct (C5_failures_as_data "00000000"
              (mkEnv None (DoResp 404 (ReadOk (JObject [("erro", JBool true)]))) 120000000))
    as [HT _].
  destruct (HT (Timed.fetchViaCEP "00000000") "ViaCEP"%string Timed.decode_via)
    as (_ & _ & Hs & _).
  - right. left. reflexivity.
  - apply (Hs 404 (ReadOk (JObject [("erro", JBool true)]))); [reflexivity|reflexivity|].
    unfold StatusOK. lia.
Defined.

Lemma timed_task_timing api url dec e r :
  sent (Timed.fetch_task api url dec e) = [r] ->
  (Timed.Error r = None ->
     exists pre post, Timed.fetch_task api url dec e =
       pre ++ [EvLock; EvInsert api (Timed.Duration r); EvUnlock; EvSend r] ++ post /\
       forall x, In x (pre ++ post) -> is_insert x = false) /\
  (Timed.Error r <> None -> forall x, In x (Timed.fetch_task api url dec e) -> is_insert x = false) /\
  last_ins api (Timed.fetch_task api url dec e) =
    match Timed.Error r with None => Some (Timed.Duration r) | Some _ => None end.
Proof.
  intros Hr. split; [|split; [|exact (timed_task_last_ins api url dec e r Hr)]].
  - intros Hok.
    destruct (timed_task_cases api url dec e) as [(b & d & _ & _ & _ & HT)|(err & Hs & _)].
    + rewrite HT in Hr |- *. simpl in Hr. injection Hr as <-.
      exists [EvNewRequest url; EvHttpDo; EvReadBody; EvDecode], [EvCloseBody; EvWgDone].
      split; [reflexivity|]. intros x Hx. simpl in Hx. intuition (subst; reflexivity).
    + rewrite Hs in Hr. injection Hr as <-. discriminate.
  - intros Hfail.
    destruct (timed_task_cases api url dec e) as [(b & d & _ & _ & _ & HT)|(err & Hs & H)].
    + rewrite HT in Hr. simpl in Hr. injection Hr as <-. simpl in Hfail. congruence.
    + intros x Hx. apply (H x Hx).
Qed.

(** C6: in the timed variant a Lookup Task writes its duration into the
    timing map, between [mu.Lock()] and [mu.Unlock()], only on the success
    path and right before sending its success Response (the written value
    is the Response's duration); a failing task writes nothing, so its key
    is absent from what it leaves in the map. *)
Theorem C6_timing_on_success_only (cep : string) (e : env) :
  forall task api,
  In (task, api) [(Timed.fetchBrasilAPI cep, "BrasilAPI"%string);
                  (Timed.fetchViaCEP cep, "ViaCEP"%string)] ->
  forall r, sent (task e) = [r] ->
  (Timed.Error r = None ->
     exists pre post, task e = pre ++ [EvLock; EvInsert api (Timed.Duration r); EvUnlock; EvSend r] ++ post /\
       forall x, In x (pre ++ post) -> is_insert x = false) /\
  (Timed.Error r <> None -> forall x, In x (task e) -> is_insert x = false) /\
  last_ins api (task e) = match Timed.Error r with None => Some (Timed.Duration r) | Some _ => None end.
Proof.
  intros task api Hin r Hr.
  destruct Hin as [Hin|[Hin|[]]]; injection Hin as <- <-;
    unfold Timed.fetchBrasilAPI, Timed.fetchViaCEP in *;
    apply timed_task_timing; exact Hr.
Qed.

Lemma C6_timing_on_success_only_witness :
  last_ins "BrasilAPI"
    (Timed.fetchBrasilAPI "01153000"
       (mkEnv None (DoResp 200 (ReadOk (JObject [("cep", JString "01153-000")]))) 250000000))
  = Some 250000000.
Proof.
  destruct (C6_timing_on_success_only "01153000"
              (mkEnv None (DoResp 200 (ReadOk (JObject [("cep", JString "01153-000")]))) 250000000)
              (Timed.fetchBrasilAPI "01153000") "BrasilAPI"%string (or_introl eq_refl)
              (Timed.mkResponse
                 (Some (PBrasil (set_brasil "cep" "01153-000" zero_brasil)))
                 "BrasilAPI" None 250000000))
    as (_ & _ & H).
  - vm_compute. reflexivity.
  - exact H.
Defined.

(** C7: in both variants [main] creates the completion channel with
    capacity 2, the number of Lookup Tasks it launches, and in every
    interleaving of the two tasks (with or without receives by the
    coordinator) a task about to send can always do so. *)
Theorem C7_channel_never_blocks_senders :
  (forall prog cep rest first,
     In (Timed.MakeChan Timed.resultChan_cap) (Timed.main (prog :: cep :: rest) first) /\
     length (List.filter (fun a => match a with Timed.GoFetch _ => true | _ => false end)
                         (Timed.main (prog :: cep :: rest) first)) = Timed.resultChan_cap) /\
  (forall prog cep rest first,
     In (Simple.MakeChan Simple.resultChan_cap) (Simple.main (prog :: cep :: rest) first) /\
     length (List.filter (fun a => match a with Simple.GoFetch _ => true | _ => false end)
                         (Simple.main (prog :: cep :: rest) first)) = Simple.resultChan_cap) /\
  (forall cep eB eV c i x r,
     reach Timed.resultChan_cap (init (Timed.launch cep eB eV)) c ->
     rem c i = EvSend x :: r -> exists c', exec Timed.resultChan_cap c (Run i) = Some c') /\
  (forall cep eB eV c i x r,
     reach Simple.resultChan_cap (init (Simple.launch cep eB eV)) c ->
     rem c i = EvSend x :: r -> exists c', exec Simple.resultChan_cap c (Run i) = Some c').
Proof.
  split; [|split; [|split]].
  - intros prog cep rest first. split.
    + simpl. right. right. left. reflexivity.
    + unfold Timed.main, Timed.coordinate.
      destruct first as [res|]; [destruct (Timed.Error res)|]; [reflexivity| |reflexivity].
      simpl. rewrite ?List.filter_app, ?length_app.
      destruct (Timed.Data res) as [[]|]; reflexivity.
  - intros prog cep rest first. split.
    + simpl. right. right. left. reflexivity.
    + unfold Simple.main, Simple.coordinate.
      destruct first as [res|]; [destruct (Simple.Error res)|]; [reflexivity| |reflexivity].
      simpl. rewrite ?List.filter_app, ?length_app.
      destruct (Simple.Data res) as [[]|]; reflexivity.
  - intros cep eB eV c i x r Hr Hrem.
    eapply reach_send_progress; [|reflexivity|exact Hr|exact Hrem].
    intros j; destruct j; apply timed_task_sends.
  - intros cep eB eV c i x r Hr Hrem.
    eapply reach_send_progress; [|reflexivity|exact Hr|exact Hrem].
    intros j; destruct j; apply simple_task_sends.
Qed.

Lemma C7_channel_never_blocks_senders_witness :
  match run Timed.resultChan_cap
          (init (Timed.launch "01153000"
                   (mkEnv None (DoResp 200 (ReadOk (JObject [("cep", JString "01153-000")]))) 250000000)
                   (mkEnv None (DoErr (ErrExternal "connection refused")) 400000000)))
          [Run T0; Run T0; Run T1; Run T1] with
  | Some c => exists c', exec Timed.resultChan_cap c (Run T1) = Some c'
  | None => False
  end.
Proof.
  destruct (run Timed.resultChan_cap
          (init (Timed.launch "01153000"
                   (mkEnv None (DoResp 200 (ReadOk (JObject [("cep", JString "01153-000")]))) 250000000)
                   (mkEnv None (DoErr (ErrExternal "connection refused")) 400000000)))
          [Run T0; Run T0; Run T1; Run T1]) as [c|] eqn:E; [|vm_compute in E; discriminate].
  destruct C7_channel_never_blocks_senders as (_ & _ & H & _).
  eapply H.
  - eapply run_reach; [apply reach_refl|exact E].
  - vm_compute in E. injection E as <-. reflexivity.
Defined.

(** C9: in the timed variant, in every interleaving of the two Lookup
    Tasks: the two are never both inside their critical sections, a task
    writing the timing map holds the mutex, neither task does network I/O
    while holding it, and once both have finished the map holds each
    successful task's duration under its name (and nothing under the name
    of a task that failed). *)
Theorem C9_timing_map_safe (cep : string) (eB eV : env) (c : @cfg Timed.Response) :
  reach Timed.resultChan_cap (init (Timed.launch cep eB eV)) c ->
  ~ (in_critical c T0 = true /\ in_critical c T1 = true) /\
  (forall i, in_critical c i = true -> lk c = Some i) /\
  no_io_locked false (Timed.fetchBrasilAPI cep eB) = true /\
  no_io_locked false (Timed.fetchViaCEP cep eV) = true /\
  (rem c T0 = [] -> rem c T1 = [] ->
   forall rB rV, sent (Timed.fetchBrasilAPI cep eB) = [rB] ->
   sent (Timed.fetchViaCEP cep eV) = [rV] ->
   tmap c !! "BrasilAPI"%string =
     match Timed.Error rB with None => Some (Timed.Duration rB) | Some _ => None end /\
   tmap c !! "ViaCEP"%string =
     match Timed.Error rV with None => Some (Timed.Duration rV) | Some _ => None end).
Proof.
  intros Hr.
  set (tr := Timed.launch cep eB eV) in *.
  assert (Hwf : forall i, lockwf Before (tr i) = true)
    by (intros []; apply timed_task_lockwf).
  set (key := fun i => match i with T0 => "BrasilAPI"%string | T1 => "ViaCEP"%string end).
  assert (Hkd : key T0 <> key T1) by (unfold key; discriminate).
  assert (Hkeys : forall i k d, In (EvInsert k d) (tr i) -> k = key i)
    by (intros [] k d; apply timed_task_keys).
  split; [exact (reach_mutex _ tr Hwf c Hr)|].
  split; [intros i; exact (reach_critical_holds _ tr Hwf c i Hr)|].
  split; [apply timed_task_no_io_locked|].
  split; [apply timed_task_no_io_locked|].
  intros H0 H1 rB rV HB HV.
  pose proof (final_tmap _ tr key Hkd Hkeys c T0 Hr H0 H1) as E0.
  pose proof (final_tmap _ tr key Hkd Hkeys c T1 Hr H0 H1) as E1.
  unfold key in E0, E1. unfold tr, Timed.launch in E0, E1.
  rewrite E0, E1.
  split; apply timed_task_last_ins; assumption.
Qed.

Lemma C9_timing_map_safe_witness :
  match run Timed.resultChan_cap
          (init (Timed.launch "01153000"
                   (mkEnv None (DoResp 200 (ReadOk (JObject [("cep", JString "01153-000")]))) 250000000)
                   (mkEnv None (DoResp 404 (ReadOk JMalformed)) 400000000)))
          [Run T0; Run T0; Run T0; Run T0; Run T1; Run T1; Run T0; Run T1; Run T0;
           Recv; Run T0; Run T0; Run T0; Run T0; Run T1; Run T1] with
  | Some c => tmap c !! "BrasilAPI"%string = Some 250000000 /\
              tmap c !! "ViaCEP"%string = None
  | None => False
  end.
Proof.
  destruct (run Timed.resultChan_cap
          (init (Timed.launch "01153000"
                   (mkEnv None (DoResp 200 (ReadOk (JObject [("cep", JString "01153-000")]))) 250000000)
                   (mkEnv None (DoResp 404 (ReadOk JMalformed)) 400000000)))
          [Run T0; Run T0; Run T0; Run T0; Run T1; Run T1; Run T0; Run T1; Run T0;
           Recv; Run T0; Run T0; Run T0; Run T0; Run T1; Run T1]) as [c|] eqn:E;
    [|vm_compute in E; discriminate].
  pose proof (run_reach _ _ _ _ _ (reach_refl _ _) E) as Hr.
  destruct (C9_timing_map_safe _ _ _ c Hr) as (_ & _ & _ & _ & H).
  vm_compute in E. injection E as <-.
  apply (H eq_refl eq_refl
           (Timed.mkResponse (Some (PBrasil (set_brasil "cep" "01153-000" zero_brasil)))
              "BrasilAPI" None 250000000)
           (Timed.mkResponse None "ViaCEP" (Some (ErrFormatted "status code: 404")) 400000000));
    vm_compute; reflexivity.
Defined.

Lemma agg_two_entries (dB dV : Z) (order : list (string * Z)) :
  order ≡ₚ map_to_list (<["BrasilAPI":=dB]> (<["ViaCEP":=dV]> (∅ : gmap string Z))) ->
  order = [("BrasilAPI"%string, dB); ("ViaCEP"%string, dV)] \/
  order = [("ViaCEP"%string, dV); ("BrasilAPI"%string, dB)].
Proof.
  intros Hp.
  assert (Hm : map_to_list (<["BrasilAPI":=dB]> (<["ViaCEP":=dV]> (∅ : gmap string Z)))
               ≡ₚ [("BrasilAPI"%string, dB); ("ViaCEP"%string, dV)]).
  { rewrite map_to_list_insert by (rewrite lookup_insert_ne by discriminate; apply lookup_empty).
    rewrite map_to_list_insert by apply lookup_empty.
    rewrite map_to_list_empty. reflexivity. }
  apply Permutation_length_2_inv. symmetry. etrans; [exact Hp|exact Hm].
Qed.

(** C4 (as amended): with entries for both backends, whatever the order Go
    ranges over the map in, the reported fastest entry has the smaller
    duration and the reported slowest the larger one (by name when they
    differ), and the reported difference is the float64 subtraction
    [slowestTime.Seconds() - fastestTime.Seconds()]; with fewer than two
    entries only the header and the comparison-unavailable line are
    printed. *)
Theorem C4_timing_comparison :
  (forall (dB dV : Z) (m : gmap string Z) (order order2 : list (string * Z)),
     m = <["BrasilAPI":=dB]> (<["ViaCEP":=dV]> ∅) ->
     order ≡ₚ map_to_list m ->
     exists fastest slowest,
       Timed.aggregator m order order2 =
         Timed.AggHeader ::
         Timed.AggFastest fastest (Seconds (Z.min dB dV)) ::
         Timed.AggSlowest slowest (Seconds (Z.max dB dV)) ::
         Timed.AggDiff (PrimFloat.sub (Seconds (Z.max dB dV)) (Seconds (Z.min dB dV))) ::
         map (fun '(api, duration) => Timed.AggEntry api (Seconds duration)) order2 /\
       m !! fastest = Some (Z.min dB dV) /\ m !! slowest = Some (Z.max dB dV) /\
       (dB < dV -> fastest = "BrasilAPI"%string /\ slowest = "ViaCEP"%string) /\
       (dV < dB -> fastest = "ViaCEP"%string /\ slowest = "BrasilAPI"%string)) /\
  (forall (m : gmap string Z) (order order2 : list (string * Z)),
     (size m < 2)%nat -> Timed.aggregator m order order2 = [Timed.AggHeader; Timed.AggUnavailable]).
Proof.
  split.
  - intros dB dV m order order2 -> Hp.
    assert (HB : <["BrasilAPI":=dB]> (<["ViaCEP":=dV]> (∅ : gmap string Z)) !! "BrasilAPI"%string = Some dB)
      by apply lookup_insert_eq.
    assert (HV : <["BrasilAPI":=dB]> (<["ViaCEP":=dV]> (∅ : gmap string Z)) !! "ViaCEP"%string = Some dV)
      by (rewrite lookup_insert_ne by discriminate; apply lookup_insert_eq).
    unfold Timed.aggregator.
    replace (1 <? size (<["BrasilAPI":=dB]> (<["ViaCEP":=dV]> (∅ : gmap string Z))))%nat
      with true by reflexivity.
    destruct (agg_two_entries dB dV order Hp) as [-> | ->];
      unfold Timed.agg_loop; simpl;
      destruct (Z.ltb_spec dV dB), (Z.ltb_spec dB dV); try lia.
    + exists "ViaCEP"%string, "BrasilAPI"%string.
      rewrite Z.min_r, Z.max_l by lia. repeat split; auto; intros; lia.
    + exists "BrasilAPI"%string, "ViaCEP"%string.
      rewrite Z.min_l, Z.max_r by lia. repeat split; auto; intros; lia.
    + exists "BrasilAPI"%string, "BrasilAPI"%string.
      rewrite Z.min_l, Z.max_l by lia. repeat split; auto; intros; lia.
    + exists "ViaCEP"%string, "BrasilAPI"%string.
      rewrite Z.min_r, Z.max_l by lia. repeat split; auto; intros; lia.
    + exists "BrasilAPI"%string, "ViaCEP"%string.
      rewrite Z.min_l, Z.max_r by lia. repeat split; auto; intros; lia.
    + exists "ViaCEP"%string, "ViaCEP"%string.
      rewrite Z.min_r, Z.max_r by lia. repeat split; auto; intros; lia.
  - intros m order order2 Hs. unfold Timed.aggregator.
    destruct (Nat.ltb_spec 1 (size m)); [lia|reflexivity].
Qed.

Lemma C4_timing_comparison_witness :
  Timed.aggregator (<["BrasilAPI":=310000000]> (<["ViaCEP":=120000000]> ∅))
    [("ViaCEP"%string, 120000000); ("BrasilAPI"%string, 310000000)] [] =
  [Timed.AggHeader;
   Timed.AggFastest "ViaCEP" (Seconds 120000000);
   Timed.AggSlowest "BrasilAPI" (Seconds 310000000);
   Timed.AggDiff (PrimFloat.sub (Seconds 310000000) (Seconds 120000000))].
Proof.
  destruct C4_timing_comparison as [H _].
  destruct (H 310000000 120000000 _ [("ViaCEP"%string, 120000000); ("BrasilAPI"%string, 310000000)] []
              eq_refl) as (f & s & Ha & _ & _ & _ & Hlt).
  - vm_compute. first [reflexivity | apply perm_swap].
  - destruct (Hlt ltac:(lia)) as [-> ->]. exact Ha.
Defined.

(** C4 as stated is refuted: the aggregator does not report the exact
    difference of the two durations but the float64 subtraction of their
    [Seconds()] values, and the error is visible in the printed text.  With
    100ms and 150.5ms the [Diferença: %.3fs] line prints [0.050]
    ([0.1505 - 0.1 = 0.05049999999999999]), while the exact difference
    [Seconds(50.5ms) = 0.0505] prints as [0.051]. *)
Lemma C4_exact_difference_counterexample :
  ~ (forall (dB dV : Z) (m : gmap string Z) (order order2 : list (string * Z)),
       m = <["BrasilAPI":=dB]> (<["ViaCEP":=dV]> ∅) ->
       order ≡ₚ map_to_list m ->
       exists x, In (Timed.AggDiff x) (Timed.aggregator m order order2) /\
                 fmt_f3 x = fmt_f3 (Seconds (Z.max dB dV - Z.min dB dV))).
Proof.
  intros H.
  destruct (H 100000000 150500000 _
               (map_to_list (<["BrasilAPI":=100000000]> (<["ViaCEP":=150500000]> ∅))) []
               eq_refl ltac:(reflexivity)) as (x & Hin & Hfmt).
  vm_compute in Hin.
  repeat destruct Hin as [Hin|Hin]; try discriminate; try contradiction.
  injection Hin as <-. vm_compute in Hfmt. discriminate.
Qed.

(** C8: the printed address fields are a fixed function of the decoded
    struct, in both variants: BrasilAPI's cep/state/city/neighborhood/street
    and ViaCEP's cep/uf/localidade/bairro/logradouro fill the postal code,
    state, city, neighborhood and street positions; and a payload carrying
    each schema field once is decoded into exactly those fields. *)
Theorem C8_schema_mapping
    (cep state city neighborhood street service : string)
    (logradouro complemento bairro localidade uf ibge gia ddd siafi : string) :
  (forall b : BrasilAPICEP,
     Timed.print_data (Some (PBrasil b)) =
       [Timed.PrintFields (b_Cep b) (b_State b) (b_City b) (b_Neighborhood b) (b_Street b)] /\
     Simple.print_data (Some (PBrasil b)) =
       [Simple.PrintFields (b_Cep b) (b_State b) (b_City b) (b_Neighborhood b) (b_Street b)]) /\
  (forall v : ViaCEP,
     Timed.print_data (Some (PVia v)) =
       [Timed.PrintFields (v_Cep v) (v_Uf v) (v_Localidade v) (v_Bairro v) (v_Logradouro v)] /\
     Simple.print_data (Some (PVia v)) =
       [Simple.PrintFields (v_Cep v) (v_Uf v) (v_Localidade v) (v_Bairro v) (v_Logradouro v)]) /\
  Timed.decode_brasil
    (JObject [("cep", JString cep); ("state", JString state); ("city", JString city);
              ("neighborhood", JString neighborhood); ("street", JString street);
              ("service", JString service)]) =
    inr (PBrasil (mkBrasilAPICEP cep state city neighborhood street service)) /\
  Timed.decode_via
    (JObject [("cep", JString cep); ("logradouro", JString logradouro);
              ("complemento", JString complemento); ("bairro", JString bairro);
              ("localidade", JString localidade); ("uf", JString uf);
              ("ibge", JString ibge); ("gia", JString gia); ("ddd", JString ddd);
              ("siafi", JString siafi)]) =
    inr (PVia (mkViaCEP cep logradouro complemento bairro localidade uf ibge gia ddd siafi)).
Proof. repeat split. Qed.

(** C10: in the timed variant, when the first value received carries an
    error, or the deadline fires first, [main] returns before starting the
    comparative-timing goroutine, so no comparative-timing line is printed,
    whatever the timing map holds. *)
Theorem C10_no_comparison_after_failure (args : list string)
    (first : sel_outcome Timed.Response) (m : gmap string Z)
    (order order2 : list (string * Z)) :
  (first = CtxDone \/ exists r err, first = RecvValue r /\ Timed.Error r = Some err) ->
  ~ In Timed.GoAggregator (Timed.main args first) /\
  Timed.program_output args first m order order2 = Timed.main args first /\
  ~ In (Timed.AggPrint Timed.AggHeader) (Timed.program_output args first m order order2).
Proof.
  intros Hf.
  assert (Hmain : Timed.main args first = [Timed.PrintUsage] \/
                  exists cep a, Timed.main args first =
                    [Timed.PrintSearching cep; Timed.WithTimeout ctx_timeout;
                     Timed.MakeChan Timed.resultChan_cap; Timed.GoFetch "BrasilAPI";
                     Timed.GoFetch "ViaCEP"; Timed.SelectFirst; a; Timed.Cancel] /\
                    (a = Timed.PrintTimeout \/ exists api err, a = Timed.PrintApiError api err)).
  { destruct args as [|p [|cep rest]]; [left; reflexivity|left; reflexivity|right].
    destruct Hf as [->|(r & err & -> & He)].
    - exists cep, Timed.PrintTimeout. split; [reflexivity|left; reflexivity].
    - exists cep, (Timed.PrintApiError (Timed.APIName r) err). split.
      + simpl. rewrite He. reflexivity.
      + right. eexists _, _. reflexivity. }
  assert (Hno : ~ In Timed.GoAggregator (Timed.main args first) /\
                ~ In (Timed.AggPrint Timed.AggHeader) (Timed.main args first)).
  { destruct Hmain as [->|(cep & a & -> & [->|(api & err & ->)])];
      simpl; split; intuition discriminate. }
  assert (Hout : Timed.program_output args first m order order2 = Timed.main args first).
  { unfold Timed.program_output.
    destruct Hmain as [->|(cep & a & -> & [->|(api & err & ->)])];
      simpl; rewrite ?app_nil_r; reflexivity. }
  rewrite Hout. tauto.
Qed.

Lemma C10_no_comparison_after_failure_witness :
  Timed.program_output ["main"; "01153000"]
    (RecvValue (Timed.mkResponse None "ViaCEP" (Some (ErrExternal "connection reset")) 80000000))
    (<["BrasilAPI":=150000000]> ∅) [("BrasilAPI"%string, 150000000)] [("BrasilAPI"%string, 150000000)]
  = Timed.main ["main"; "01153000"]
      (RecvValue (Timed.mkResponse None "ViaCEP" (Some (ErrExternal "connection reset")) 80000000)).
Proof.
  destruct (C10_no_comparison_after_failure ["main"; "01153000"]
              (RecvValue (Timed.mkResponse None "ViaCEP" (Some (ErrExternal "connection reset")) 80000000))
              (<["BrasilAPI":=150000000]> ∅) [("BrasilAPI"%string, 150000000)]
              [("BrasilAPI"%string, 150000000)]) as (_ & H & _).
  - right. eexists _, _. split; reflexivity.
  - exact H.
Defined.

(* ------------------------------------------------------------------ *)
(** ** Further properties of the code *)

(** *** The two variants *)

Lemma erase_fetch_task api url dec e :
  Simple.fetch_task api url dec e = erase_trace (Timed.fetch_task api url dec e).
Proof. unfold Simple.fetch_task, Timed.fetch_task. fetch_cases; reflexivity. Qed.

Lemma sent_erase_trace l : sent (erase_trace l) = map erase_response (sent l).
Proof.
  unfold erase_trace, sent.
  induction l as [|e l IH]; [reflexivity|].
  destruct e; simpl; congruence.
Qed.

(** The Lookup Tasks of src/unnamed/part_000 perform exactly the effects of
    those of src/main.go, in the same order, once the mutex, the timing
    map and the wait group are left out and the responses lose their
    [Duration]; in particular they publish the same response, less its
    duration. *)
Theorem simple_fetch_is_timed_fetch_erased (cep : string) (e : env) :
  Simple.fetchBrasilAPI cep e = erase_trace (Timed.fetchBrasilAPI cep e) /\
  Simple.fetchViaCEP cep e = erase_trace (Timed.fetchViaCEP cep e) /\
  sent (Simple.fetchBrasilAPI cep e) = map erase_response (sent (Timed.fetchBrasilAPI cep e)) /\
  sent (Simple.fetchViaCEP cep e) = map erase_response (sent (Timed.fetchViaCEP cep e)).
Proof.
  unfold Simple.fetchBrasilAPI, Simple.fetchViaCEP, Timed.fetchBrasilAPI, Timed.fetchViaCEP.
  rewrite !erase_fetch_task, !sent_erase_trace. repeat split.
Qed.

(** Given corresponding outcomes of the first select, the [main] of
    src/unnamed/part_000 performs exactly the actions of the [main] of
    src/main.go, without the duration on the winner line and without the
    comparative-timing goroutine, the draining select and the sleep. *)
Theorem simple_main_is_timed_main_erased (args : list string)
    (first : sel_outcome Timed.Response) :
  Simple.main args (erase_outcome first) = erase_actions (Timed.main args first).
Proof.
  destruct args as [|p [|cep rest]]; [reflexivity|reflexivity|].
  destruct first as [r|]; [|reflexivity].
  unfold Simple.main, Timed.main, erase_actions.
  rewrite !flat_map_app. f_equal. f_equal.
  cbn [erase_outcome Simple.coordinate Timed.coordinate erase_response Simple.Error Simple.APIName Simple.Data].
  destruct (Timed.Error r) as [err|]; [reflexivity|].

  destruct (Timed.Data r) as [[b|v]|]; reflexivity.
Qed.

(** *** Deferred calls of a Lookup Task *)

(** In src/main.go, [defer wg.Done()] makes [wg.Done()] run exactly once,
    as the very last effect, on every path of a Lookup Task; so the
    counter of [wg.Add(2)] reaches zero once both tasks have returned. *)
Theorem timed_fetch_wg_done_once_last (api url : string)
    (dec : json_doc -> go_error + payload) (e : env) :
  exists pre, Timed.fetch_task api url dec e = pre ++ [EvWgDone] /\ ~ In EvWgDone pre.
Proof.
  exists (removelast (Timed.fetch_task api url dec e)).
  unfold Timed.fetch_task.
  fetch_cases; (split; [reflexivity|cbn [removelast List.In]; intuition discriminate]).
Qed.

(** [defer resp.Body.Close()] is registered only once [client.Do] has
    returned a response: on those paths the body is closed exactly once,
    after the task's one send (followed only by [wg.Done()] in
    src/main.go), and on the paths where no response was obtained it is
    never closed; in both variants. *)
Theorem fetch_body_closed_once_after_send (api url : string)
    (dec : json_doc -> go_error + payload) (e : env) :
  match e_request e, e_do e with
  | None, DoResp _ _ =>
      (exists pre, Timed.fetch_task api url dec e = pre ++ [EvCloseBody; EvWgDone] /\
                   sends pre = 1%nat /\ ~ In EvCloseBody pre) /\
      (exists pre, Simple.fetch_task api url dec e = pre ++ [EvCloseBody] /\
                   sends pre = 1%nat /\ ~ In EvCloseBody pre)
  | _, _ =>
      ~ In EvCloseBody (Timed.fetch_task api url dec e) /\
      ~ In EvCloseBody (Simple.fetch_task api url dec e)
  end.
Proof.
  unfold Timed.fetch_task, Simple.fetch_task.
  destruct (e_request e) as [err|].
  { split; cbn [List.In]; intuition discriminate. }
  destruct (e_do e) as [err|status rb].
  { split; cbn [List.In]; intuition discriminate. }
  split.
  - match goal with |- exists pre, ?T = _ /\ _ => exists (removelast (removelast T)) end.
    fetch_cases; (split; [reflexivity|]); unfold sends;
      cbn [removelast List.filter is_send length List.In];
      (split; [reflexivity|intuition discriminate]).
  - match goal with |- exists pre, ?T = _ /\ _ => exists (removelast T) end.
    fetch_cases; (split; [reflexivity|]); unfold sends;
      cbn [removelast List.filter is_send length List.In];
      (split; [reflexivity|intuition discriminate]).
Qed.

(** *** Progress of the two goroutines *)

Section Progress.
Context {R : Type}.
Variable tr : tid -> list (event R).
Hypothesis tr_wf : forall i, lockwf Before (tr i) = true.
Hypothesis tr_one_send : forall i, sends (tr i) = 1%nat.

Lemma reach_no_deadlock c :
  reach 2 (init tr) c -> (forall i, exec_thread 2 c i = None) -> forall i, rem c i = [].
Proof.
  intros Hr Hn i.
  destruct (rem c i) as [|e r] eqn:Hi; [reflexivity|exfalso].
  pose proof (Hn i) as Hni. unfold exec_thread in Hni. rewrite Hi in Hni.
  destruct e; try discriminate Hni.
  - destruct (lk c) as [j|] eqn:Hl; [|discriminate Hni].
    destruct (reach_lock 2 tr tr_wf c Hr j) as (p & Hw & Hp).
    assert (Hcs : in_cs p = true) by (apply Hp; exact Hl).
    pose proof (Hn j) as Hnj. unfold exec_thread in Hnj.
    destruct (rem c j) as [|e' r'] eqn:Hj.
    + destruct p; simpl in Hw, Hcs; discriminate.
    + simpl in Hw. destruct p; simpl in Hcs; try discriminate;
        destruct e'; simpl in Hw; try discriminate; rewrite ?Hl in Hnj; discriminate Hnj.
  - destruct (reach_lock 2 tr tr_wf c Hr i) as (p & Hw & Hp).
    rewrite Hi in Hw. destruct p; simpl in Hw; try discriminate.
    assert (Hl : lk c = Some i) by (apply Hp; reflexivity).
    rewrite Hl in Hni. discriminate.
  - assert (Hs : exists c', exec 2 c (Run i) = Some c').
    { eapply reach_send_progress; [exact tr_one_send|reflexivity|exact Hr|exact Hi]. }
    destruct Hs as [c' Hc']. cbn [exec] in Hc'. congruence.
Qed.

Lemma reach_final_unlocked cap c :
  reach cap (init tr) c -> rem c T0 = [] -> rem c T1 = [] -> lk c = None.
Proof.
  intros Hr H0 H1. destruct (lk c) as [j|] eqn:Hl; [exfalso|reflexivity].
  destruct (reach_lock cap tr tr_wf c Hr j) as (p & Hw & Hp).
  assert (Hcs : in_cs p = true) by (apply Hp; exact Hl).
  assert (Hj : rem c j = []) by (destruct j; assumption).
  rewrite Hj in Hw. simpl in Hw. rewrite Hcs in Hw. discriminate.
Qed.
End Progress.

Lemma timed_launch_wf cep eB eV i : lockwf Before (Timed.launch cep eB eV i) = true.
Proof. destruct i; apply timed_task_lockwf. Qed.

Lemma timed_launch_one_send cep eB eV i : sends (Timed.launch cep eB eV i) = 1%nat.
Proof. destruct i; apply timed_task_sends. Qed.

Lemma simple_launch_wf cep eB eV i : lockwf Before (Simple.launch cep eB eV i) = true.
Proof. destruct i; apply simple_task_lockwf. Qed.

Lemma simple_launch_one_send cep eB eV i : sends (Simple.launch cep eB eV i) = 1%nat.
Proof. destruct i; apply simple_task_sends. Qed.

(** The two Lookup Tasks never deadlock, in either variant: in every
    reachable state in which neither goroutine can take a step, both have
    returned, even when nobody ever receives from the completion channel
    (as after a failure or a timeout, when [main] returns at once). *)
Theorem lookup_tasks_never_deadlock (cep : string) (eB eV : env) :
  (forall c, reach Timed.resultChan_cap (init (Timed.launch cep eB eV)) c ->
     (forall i, exec_thread Timed.resultChan_cap c i = None) ->
     rem c T0 = [] /\ rem c T1 = []) /\
  (forall c, reach Simple.resultChan_cap (init (Simple.launch cep eB eV)) c ->
     (forall i, exec_thread Simple.resultChan_cap c i = None) ->
     rem c T0 = [] /\ rem c T1 = []).
Proof.
  split; intros c Hr Hn.
  - pose proof (reach_no_deadlock _ (timed_launch_wf cep eB eV)
                  (timed_launch_one_send cep eB eV) c Hr Hn) as H. auto.
  - pose proof (reach_no_deadlock _ (simple_launch_wf cep eB eV)
                  (simple_launch_one_send cep eB eV) c Hr Hn) as H. auto.
Qed.

Lemma lookup_tasks_never_deadlock_witness :
  match run Timed.resultChan_cap
          (init (Timed.launch "01153000"
                   (mkEnv None (DoResp 200 (ReadOk (JObject [("cep", JString "01153-000")]))) 250000000)
                   (mkEnv None (DoResp 404 (ReadOk JMalformed)) 400000000)))
          [Run T0; Run T0; Run T0; Run T0; Run T0; Run T0; Run T0; Run T0; Run T0; Run T0;
           Run T1; Run T1; Run T1; Run T1; Run T1] with
  | Some c => rem c T0 = [] /\ rem c T1 = []
  | None => False
  end.
Proof.
  destruct (run Timed.resultChan_cap
          (init (Timed.launch "01153000"
                   (mkEnv None (DoResp 200 (ReadOk (JObject [("cep", JString "01153-000")]))) 250000000)
                   (mkEnv None (DoResp 404 (ReadOk JMalformed)) 400000000)))
          [Run T0; Run T0; Run T0; Run T0; Run T0; Run T0; Run T0; Run T0; Run T0; Run T0;
           Run T1; Run T1; Run T1; Run T1; Run T1]) as [c|] eqn:E;
    [|vm_compute in E; discriminate].
  pose proof (run_reach _ _ _ _ _ (reach_refl _ _) E) as Hr.
  apply (proj1 (lookup_tasks_never_deadlock _ _ _) c Hr).
  vm_compute in E. injection E as <-. intros []; vm_compute; reflexivity.
Defined.

(** Once both Lookup Tasks of src/main.go have returned (the point where
    [wg.Wait()] returns), the timing mutex is unlocked, so the
    comparative-timing goroutine's [timingMutex.Lock()] does not block. *)
Theorem timing_mutex_free_after_tasks (cep : string) (eB eV : env) c :
  reach Timed.resultChan_cap (init (Timed.launch cep eB eV)) c ->
  rem c T0 = [] -> rem c T1 = [] -> lk c = None.
Proof. apply reach_final_unlocked, timed_launch_wf. Qed.

Lemma timing_mutex_free_after_tasks_witness :
  match run Timed.resultChan_cap
          (init (Timed.launch "01153000"
                   (mkEnv None (DoResp 200 (ReadOk (JObject [("cep", JString "01153-000")]))) 250000000)
                   (mkEnv None (DoResp 200 (ReadOk (JObject [("uf", JString "SP")]))) 300000000)))
          [Run T0; Run T0; Run T0; Run T0; Run T1; Run T1; Run T1; Run T1; Run T1; Run T1;
           Run T1; Run T0; Run T0; Run T0; Run T0; Run T0; Run T0; Run T1; Run T1; Run T1] with
  | Some c => lk c = None
  | None => False
  end.
Proof.
  destruct (run Timed.resultChan_cap
          (init (Timed.launch "01153000"
                   (mkEnv None (DoResp 200 (ReadOk (JObject [("cep", JString "01153-000")]))) 250000000)
                   (mkEnv None (DoResp 200 (ReadOk (JObject [("uf", JString "SP")]))) 300000000)))
          [Run T0; Run T0; Run T0; Run T0; Run T1; Run T1; Run T1; Run T1; Run T1; Run T1;
           Run T1; Run T0; Run T0; Run T0; Run T0; Run T0; Run T0; Run T1; Run T1; Run T1])
    as [c|] eqn:E; [|vm_compute in E; discriminate].
  pose proof (run_reach _ _ _ _ _ (reach_refl _ _) E) as Hr.
  apply (timing_mutex_free_after_tasks _ _ _ c Hr);
    vm_compute in E; injection E as <-; reflexivity.
Defined.

(** *** What [main] prints for a published response *)

Lemma timed_sent_shape api url dec e :
  Forall (fun r => Timed.APIName r = api /\ Timed.Duration r = e_elapsed e /\
            match Timed.Error r with
            | Some _ => Timed.Data r = None
            | None => exists body p, dec body = inr p /\ Timed.Data r = Some p
            end) (sent (Timed.fetch_task api url dec e)).
Proof.
  destruct (timed_task_cases api url dec e)
    as [(body & data & _ & _ & Hdec & ->)|(err & -> & _)].
  - cbn. constructor; [|constructor]. cbn. repeat split. eauto.
  - constructor; [|constructor]. cbn. repeat split.
Qed.

Lemma decode_brasil_inr body p : Timed.decode_brasil body = inr p -> exists b, p = PBrasil b.
Proof.
  unfold Timed.decode_brasil. destruct (unmarshal_brasil body); [discriminate|].
  intros H; injection H as <-. eauto.
Qed.

Lemma decode_via_inr body p : Timed.decode_via body = inr p -> exists v, p = PVia v.
Proof.
  unfold Timed.decode_via. destruct (unmarshal_via body); [discriminate|].
  intros H; injection H as <-. eauto.
Qed.

(** The response a Lookup Task publishes always names its backend; a
    failed one carries no data, and a successful one carries a value of
    that backend's struct, so [main]'s type switch always matches it: for
    such a response [main] prints either the API error or the winner line
    followed by the address block, in both variants. *)
Theorem published_response_fully_printed (cep : string) (e : env) :
  Forall (fun r => Timed.APIName r = "BrasilAPI"%string /\
    match Timed.Error r with
    | Some err => Timed.Data r = None /\
        Timed.coordinate (RecvValue r) = [Timed.PrintApiError "BrasilAPI" err]
    | None => exists b, Timed.Data r = Some (PBrasil b) /\
        Timed.coordinate (RecvValue r) =
          [Timed.PrintWinner "BrasilAPI" (Seconds (Timed.Duration r));
           Timed.PrintFields (b_Cep b) (b_State b) (b_City b) (b_Neighborhood b) (b_Street b);
           Timed.GoAggregator; Timed.RecvOrAfter (100 * Millisecond);
           Timed.SleepFor (200 * Millisecond)]
    end) (sent (Timed.fetchBrasilAPI cep e)) /\
  Forall (fun r => Timed.APIName r = "ViaCEP"%string /\
    match Timed.Error r with
    | Some err => Timed.Data r = None /\
        Timed.coordinate (RecvValue r) = [Timed.PrintApiError "ViaCEP" err]
    | None => exists v, Timed.Data r = Some (PVia v) /\
        Timed.coordinate (RecvValue r) =
          [Timed.PrintWinner "ViaCEP" (Seconds (Timed.Duration r));
           Timed.PrintFields (v_Cep v) (v_Uf v) (v_Localidade v) (v_Bairro v) (v_Logradouro v);
           Timed.GoAggregator; Timed.RecvOrAfter (100 * Millisecond);
           Timed.SleepFor (200 * Millisecond)]
    end) (sent (Timed.fetchViaCEP cep e)) /\
  Forall (fun r => Simple.APIName r = "BrasilAPI"%string /\
    match Simple.Error r with
    | Some err => Simple.Data r = None /\
        Simple.coordinate (RecvValue r) = [Simple.PrintApiError "BrasilAPI" err]
    | None => exists b, Simple.Data r = Some (PBrasil b) /\
        Simple.coordinate (RecvValue r) =
          [Simple.PrintWinner "BrasilAPI";
           Simple.PrintFields (b_Cep b) (b_State b) (b_City b) (b_Neighborhood b) (b_Street b)]
    end) (sent (Simple.fetchBrasilAPI cep e)) /\
  Forall (fun r => Simple.APIName r = "ViaCEP"%string /\
    match Simple.Error r with
    | Some err => Simple.Data r = None /\
        Simple.coordinate (RecvValue r) = [Simple.PrintApiError "ViaCEP" err]
    | None => exists v, Simple.Data r = Some (PVia v) /\
        Simple.coordinate (RecvValue r) =
          [Simple.PrintWinner "ViaCEP";
           Simple.PrintFields (v_Cep v) (v_Uf v) (v_Localidade v) (v_Bairro v) (v_Logradouro v)]
    end) (sent (Simple.fetchViaCEP cep e)).
Proof.
  unfold Simple.fetchBrasilAPI, Simple.fetchViaCEP.
  rewrite !erase_fetch_task, !sent_erase_trace, !Forall_map.
  unfold Timed.fetchBrasilAPI, Timed.fetchViaCEP.
  repeat split; (eapply Forall_impl; [apply timed_sent_shape|]);
    intros r (Hn & _ & Hr); cbn [erase_response Simple.APIName Simple.Error Simple.Data];
    (split; [exact Hn|]);
    cbn [Timed.coordinate Simple.coordinate erase_response Simple.Error Simple.APIName Simple.Data];
    destruct (Timed.Error r) as [err|];
    try (rewrite Hn; split; [exact Hr|reflexivity]);
    destruct Hr as (body & p & Hdec & Hd);
    first [ destruct (decode_brasil_inr _ _ Hdec) as [b ->]; exists b
          | destruct (decode_via_inr _ _ Hdec) as [v ->]; exists v ];
    rewrite Hd, Hn; split; reflexivity.
Qed.

(** *** Decoding a response body *)

Section DecodeProofs.
Context {S : Type} (tags : list string) (set : string -> string -> S -> S).






Lemma match_tag_case t k :
  Forall (fun t' => lower t' = t') tags -> In t tags -> lower k = t ->
  match_tag tags k = Some t.
Proof.
  intros Hl Ht Hk. unfold match_tag.
  destruct (find (fun t' => String.eqb t' k) tags) as [t'|] eqn:F.
  - apply find_some in F as [Hin Heq]. apply String.eqb_eq in Heq. subst t'.
    rewrite List.Forall_forall in Hl. rewrite (Hl k Hin) in Hk. subst. reflexivity.
  - rewrite Hk.
    destruct (find (fun t' => String.eqb (lower t') t) tags) as [x|] eqn:G.
    + apply find_some in G as [Hin Heq]. apply String.eqb_eq in Heq.
      rewrite List.Forall_forall in Hl. rewrite (Hl x Hin) in Heq. subst. reflexivity.
    + exfalso. pose proof (find_none _ _ G t Ht) as Hf.
      cbv beta in Hf. rewrite List.Forall_forall in Hl. rewrite (Hl t Ht), String.eqb_refl in Hf. discriminate.
Qed.

Hypothesis set_comm : forall t1 t2 s1 s2 acc,
  t1 <> t2 -> set t1 s1 (set t2 s2 acc) = set t2 s2 (set t1 s1 acc).


End DecodeProofs.




Lemma brasil_tags_lower : Forall (fun t => lower t = t) brasil_tags.
Proof. repeat constructor. Qed.

Lemma via_tags_lower : Forall (fun t => lower t = t) via_tags.
Proof. repeat constructor. Qed.





(** Object keys are matched to the struct tags regardless of ASCII letter
    case: a key such as ["CEP"] or ["Uf"] fills the field tagged ["cep"] or
    ["uf"], for both schemas. *)
Theorem json_keys_match_ignoring_case (t k s : string) :
  (In t brasil_tags -> lower k = t ->
     unmarshal_brasil (JObject [(k, JString s)]) = inr (set_brasil t s zero_brasil)) /\
  (In t via_tags -> lower k = t ->
     unmarshal_via (JObject [(k, JString s)]) = inr (set_via t s zero_via)).
Proof.
  split; intros Ht Hk.
  - unfold unmarshal_brasil, unmarshal. cbn [decode_fields].
    rewrite (match_tag_case _ t k brasil_tags_lower Ht Hk). reflexivity.
  - unfold unmarshal_via, unmarshal. cbn [decode_fields].
    rewrite (match_tag_case _ t k via_tags_lower Ht Hk). reflexivity.
Qed.

Lemma json_keys_match_ignoring_case_witness :
  unmarshal_via (JObject [("UF", JString "SP")]) = inr (set_via "uf" "SP" zero_via).
Proof.
  apply (proj2 (json_keys_match_ignoring_case "uf" "UF" "SP")).
  - vm_compute. tauto.
  - reflexivity.
Defined.





(** *** The status-code error message *)

Lemma N_digits_read fuel n acc a :
  (n < 10 ^ N.of_nat fuel)%N ->
  exists k, read_digits (N_digits fuel n acc) a = read_digits acc (a * 10 ^ k + n)%N.
Proof.
  revert n acc a. induction fuel as [|f IH]; intros n acc a Hn.
  - cbn in Hn. exists 0%N. cbn [N_digits]. rewrite N.pow_0_r. f_equal. lia.
  - assert (Hd : (48 + n mod 10 < 256)%N).
    { pose proof (N.mod_lt n 10 ltac:(discriminate)). lia. }
    assert (Hstep : forall a', read_digits (String (ascii_of_N (48 + n mod 10)) acc) a' =
                               read_digits acc (a' * 10 + n mod 10)%N).
    { intros a'. cbn [read_digits]. rewrite N_ascii_embedding by exact Hd.
      pose proof (N.mod_lt n 10 ltac:(discriminate)).
      remember (n mod 10)%N as x.
      replace ((48 <=? 48 + x)%N && (48 + x <=? 57)%N) with true
        by (symmetry; apply andb_true_iff; split; apply N.leb_le; lia).
      f_equal. lia. }
    cbn [N_digits]. destruct (n <? 10)%N eqn:Hlt.
    + apply N.ltb_lt in Hlt. exists 1%N. rewrite Hstep, N.mod_small by exact Hlt.
      rewrite N.pow_1_r. reflexivity.
    + apply N.ltb_ge in Hlt.
      assert (Hq : (n / 10 < 10 ^ N.of_nat f)%N).
      { apply N.Div0.div_lt_upper_bound.
        rewrite Nat2N.inj_succ, N.pow_succ_r' in Hn. exact Hn. }
      destruct (IH (n / 10)%N (String (ascii_of_N (48 + n mod 10)) acc) a Hq) as [k Hk].
      exists (k + 1)%N. rewrite Hk, Hstep.
      pose proof (N.div_mod n 10 ltac:(discriminate)) as Hdm.
      assert (Harith : ((a * 10 ^ k + n / 10) * 10 + n mod 10 = a * 10 ^ (k + 1) + n)%N).
      { rewrite N.pow_add_r, N.pow_1_r.
        transitivity (a * (10 ^ k * 10) + (10 * (n / 10) + n mod 10))%N; [ring|].
        rewrite <- Hdm. reflexivity. }
      rewrite Harith. reflexivity.
Qed.

Lemma append_prefix_inj (p s1 s2 : string) :
  String.append p s1 = String.append p s2 -> s1 = s2.
Proof.
  induction p as [|c p IH]; cbn; [auto|]. intros H. injection H as H. exact (IH H).
Qed.

(** The error of a non-200 status, [fmt.Errorf("status code: %d",
    resp.StatusCode)], renders the status in decimal: its digits read back
    to the status itself, so two distinct status codes never give the same
    error message. *)
Theorem status_error_message_exact (s1 s2 : Z) :
  0 <= s1 < 2 ^ 63 -> 0 <= s2 < 2 ^ 63 ->
  read_digits (itoa s1) 0 = Some (Z.to_N s1) /\
  (ErrFormatted (String.append "status code: " (itoa s1)) =
     ErrFormatted (String.append "status code: " (itoa s2)) -> s1 = s2).
Proof.
  assert (Hread : forall z, 0 <= z < 2 ^ 63 -> read_digits (itoa z) 0 = Some (Z.to_N z)).
  { intros z Hz. unfold itoa.
    replace (z <? 0) with false by (symmetry; apply Z.ltb_ge; lia).
    assert (Hb : (Z.to_N z < 10 ^ N.of_nat 64)%N).
    { apply N2Z.inj_lt. rewrite Z2N.id by lia.
      assert (H10 : Z.of_N (10 ^ N.of_nat 64) = 10 ^ 64) by reflexivity.
      rewrite H10. assert (2 ^ 63 < 10 ^ 64) by (vm_compute; reflexivity). lia. }
    destruct (N_digits_read 64 (Z.to_N z) EmptyString 0 Hb) as [k Hk].
    rewrite Hk. cbn [read_digits]. f_equal; lia. }
  intros H1 H2. split; [exact (Hread s1 H1)|].
  intros H. injection H as H. apply append_prefix_inj in H.
  pose proof (Hread s1 H1) as R1. pose proof (Hread s2 H2) as R2.
  rewrite H, R2 in R1. injection R1 as R1. apply Z2N.inj in R1; lia.
Qed.

Lemma status_error_message_exact_witness :
  read_digits (itoa 404) 0 = Some 404%N.
Proof.
  apply (proj1 (status_error_message_exact 404 503 ltac:(lia) ltac:(lia))).
Defined.

(** *** The comparative-timing goroutine on a tie *)

(** When both backends took exactly the same time, the [range] loop keeps
    the entry it visits first for both the fastest and the slowest (the
    comparisons are strict), so the same backend is named on both lines,
    whichever order Go iterates the map in. *)
Theorem aggregator_tie_names_one_backend (d : Z) (m : gmap string Z)
    (order order2 : list (string * Z)) :
  m = <["BrasilAPI":=d]> (<["ViaCEP":=d]> ∅) ->
  order ≡ₚ map_to_list m ->
  exists api rest,
    order = (api, d) :: rest /\
    Timed.aggregator m order order2 =
      Timed.AggHeader :: Timed.AggFastest api (Seconds d) :: Timed.AggSlowest api (Seconds d) ::
      Timed.AggDiff (PrimFloat.sub (Seconds d) (Seconds d)) ::
      map (fun '(api, duration) => Timed.AggEntry api (Seconds duration)) order2.
Proof.
  intros -> Hp. unfold Timed.aggregator.
  replace (1 <? size (<["BrasilAPI":=d]> (<["ViaCEP":=d]> (∅ : gmap string Z))))%nat
    with true by reflexivity.
  destruct (agg_two_entries d d order Hp) as [-> | ->];
    eexists _, _; (split; [reflexivity|]);
    unfold Timed.agg_loop; cbn; rewrite Z.ltb_irrefl; reflexivity.
Qed.

Lemma aggregator_tie_names_one_backend_witness :
  exists api rest,
    [("BrasilAPI"%string, 200000000); ("ViaCEP"%string, 200000000)] = (api, 200000000) :: rest /\
    Timed.aggregator (<["BrasilAPI":=200000000]> (<["ViaCEP":=200000000]> ∅))
      [("BrasilAPI"%string, 200000000); ("ViaCEP"%string, 200000000)] [] =
      [Timed.AggHeader; Timed.AggFastest api (Seconds 200000000);
       Timed.AggSlowest api (Seconds 200000000);
       Timed.AggDiff (PrimFloat.sub (Seconds 200000000) (Seconds 200000000))].
Proof.
  apply (aggregator_tie_names_one_backend 200000000 _ _ [] eq_refl).
  vm_compute. first [reflexivity | apply perm_swap].
Defined.
